(** * qalib.qabase.threading: the [Parallel] worker pool

    A shallow embedding of [Parallel.__init__], [Parallel._wrapped] and
    [Parallel.run_threads] as an interleaving transition system: the caller
    thread and every worker thread advance one statement at a time over the
    attributes of the shared [Parallel] object. *)

From Stdlib Require Import ZArith Floats String Ascii DecimalString.
From stdpp Require Import base tactics option list relations.

Local Open Scope string_scope.
Local Open Scope nat_scope.
Local Open Scope list_scope.

(** ** Python values *)

(** Data handed to the callables. *)
Inductive pyval :=
| PyNone
| PyInt (z : Z)
| PyStr (s : string).

(** [sys.exc_info()]: the exception class (given by the names of the class
    and of its bases, most derived first), the exception value and the
    traceback. *)
Record exc_info := ExcInfo {
  exc_type : list string;
  exc_value : string;
  exc_tb : list string
}.

Definition string_mem (s : string) (l : list string) : bool :=
  existsb (String.eqb s) l.

(** [except Exception] *)
Definition is_Exception (e : exc_info) : bool :=
  string_mem "Exception" (exc_type e).

(** [except Queue.Empty] *)
Definition is_Queue_Empty (e : exc_info) : bool :=
  string_mem "Queue.Empty" (exc_type e).

Inductive outcome :=
| Returns
| Raises (e : exc_info).

(** An entry of [funcs], or the [fillvalue] of [izip_longest] in its place. *)
Inductive pyfunc :=
| PyFunction (f_module f_name : string)
             (f_body : list pyval -> list (string * pyval) -> outcome)
| FuncFill.

(** An entry of [args_list], or the [fillvalue] in its place. *)
Inductive pyargs :=
| ArgsTuple (xs : list pyval)
| ArgsStr (s : string)
| ArgsUnicode (s : string)
| ArgsFill.

(** An entry of [kwargs_list]; the [fillvalue] [{}] is the empty mapping. *)
Definition pykwargs := list (string * pyval).

Definition task : Type := pyfunc * pyargs * pykwargs.

(** [isinstance(args, str) or isinstance(args, unicode)] *)
Definition is_basestring (a : pyargs) : bool :=
  match a with
  | ArgsStr _ | ArgsUnicode _ => true
  | _ => false
  end.

(** The positional arguments of [func( *args, **kwargs)]: iterating the
    fill value [{}] yields nothing, iterating a string yields its
    characters. *)
Definition star_args (a : pyargs) : list pyval :=
  match a with
  | ArgsTuple xs => xs
  | ArgsStr s | ArgsUnicode s =>
      map (fun c => PyStr (String c EmptyString)) (list_ascii_of_string s)
  | ArgsFill => []
  end.

Definition Exception_bases : list string :=
  ["StandardError"; "Exception"; "BaseException"; "object"].

(** [func.__module__] on the fill value, a dict. *)
Definition attribute_error : exc_info :=
  {| exc_type := "AttributeError" :: Exception_bases;
     exc_value := "'dict' object has no attribute '__module__'";
     exc_tb := ["_wrapped"; "_set_current_thread_name_from_func_name"] |}.

(** Lines 80-83 of [_wrapped]: name the thread after the function, then
    call it. *)
Definition run_task (t : task) : outcome :=
  match t with
  | (PyFunction _ _ body, a, k) => body (star_args a) k
  | (FuncFill, _, _) => Raises attribute_error
  end.

(** ** Construction *)

Record params := MkParams {
  p_funcs : list pyfunc;
  p_args_list : option (list pyargs);
  p_kwargs_list : option (list pykwargs);
  p_max_workers : Z;
  p_timeout : Z;
  p_run_over_exceptions : bool;
  p_i_know_what_im_doing : bool;
  p_output_interval : option float
}.

(** The attributes [__init__] sets and nothing later assigns. *)
Record attrs := Attrs {
  funcs : list pyfunc;
  args_list : list pyargs;
  kwargs_list : list pykwargs;
  max_workers : Z;
  timeout : Z;
  run_over_exceptions : bool;
  output_interval : option float
}.

(** [x if x else []] *)
Definition or_empty {A} (o : option (list A)) : list A :=
  match o with
  | Some (x :: l) => x :: l
  | _ => []
  end.

Definition init_attrs (p : params) : attrs :=
  {| funcs := p_funcs p;
     args_list := or_empty (p_args_list p);
     kwargs_list := or_empty (p_kwargs_list p);
     max_workers := p_max_workers p;
     timeout := p_timeout p;
     run_over_exceptions := p_run_over_exceptions p && p_i_know_what_im_doing p;
     output_interval := p_output_interval p |}.

(** ** Enqueueing *)

Fixpoint izip_longest_go (n : nat) (fs : list pyfunc) (az : list pyargs)
    (ks : list pykwargs) : list task :=
  match n with
  | 0 => []
  | S n =>
      (hd FuncFill fs, hd ArgsFill az, hd [] ks)
        :: izip_longest_go n (tl fs) (tl az) (tl ks)
  end.

(** [izip_longest(funcs, args_list, kwargs_list, fillvalue={})] *)
Definition izip_longest (fs : list pyfunc) (az : list pyargs)
    (ks : list pykwargs) : list task :=
  izip_longest_go (length fs `max` (length az `max` length ks)) fs az ks.

Definition args_shape_error : exc_info :=
  {| exc_type := "ValueError" :: Exception_bases;
     exc_value := "args_list must be list of lists not list of strings";
     exc_tb := ["run_threads"] |}.

(** Lines 100-107: the tasks put on the queue, each with its position, and
    the error that stopped the loop, if any. *)
Fixpoint enqueue (i : nat) (ts : list task)
    : list (nat * task) * option exc_info :=
  match ts with
  | [] => ([], None)
  | (f, a, k) :: rest =>
      if is_basestring a then ([], Some args_shape_error)
      else
        let (q, err) := enqueue (S i) rest in
        ((i, (f, a, k)) :: q, err)
  end.

(** ** Threads and the shared object *)

(** Where a worker thread stands in [_wrapped]. A task carries its position
    in the list that was enqueued. *)
Inductive wstate :=
| WLoop                                        (* line 70: [while self.keep_running] *)
| WGet                                         (* line 72: [self.queue.get(block=False)] *)
| WGot (t : nat * task)                        (* line 75: [self.logger.debug] *)
| WCall (t : nat * task)                       (* lines 80-85: the task runs *)
| WExcSet (t : nat * task) (e : exc_info)      (* line 87 *)
| WExcLog (t : nat * task) (e : exc_info)      (* line 88 *)
| WExcPut (t : nat * task) (e : exc_info)      (* line 90 *)
| WTaskDone (t : nat * task)                   (* line 92: [self.queue.task_done()] *)
| WExit                                        (* the thread returned from [_wrapped] *)
| WDead (t : nat * task).                      (* an uncaught exception ended the thread *)

(** Where the caller thread stands in [run_threads]. [start] and [last] are
    the locals [start_time] and [last_output_time]; [pend] is the exception
    that left the [try] body, if any. *)
Inductive mstate :=
| MEnqueue                                             (* lines 100-107 *)
| MStart (k : nat)                                     (* lines 109-113, then 115-124 *)
| MLoop (start last : float)                               (* line 125 *)
| MPoll (start last : float)                               (* line 129 *)
| MPollSet (start last : float) (e : exc_info)             (* lines 130-131 *)
| MProgress (start last : float)                           (* lines 134-143 *)
| MSleep (start last : float)                              (* line 144 *)
| MFinally (pend : option exc_info)                    (* line 150 *)
| MFinSet (pend : option exc_info) (e : exc_info)      (* line 151 *)
| MJoin (pend : option exc_info) (e : exc_info) (k : nat)  (* lines 154-156 *)
| MDone (pend found : option exc_info).                (* [run_threads] is over *)

Inductive result :=
| Returned
| Raised (e : exc_info).

Definition propagate (pend : option exc_info) : result :=
  match pend with
  | Some e => Raised e
  | None => Returned
  end.

(** How [run_threads] ends when [pend] left the [try] body and the [finally]
    block took [found] from the failure channel: line 156 raises [found]
    inside the [try] of line 149, whose handler is [except Queue.Empty]. *)
Definition outcome_of (pend found : option exc_info) : result :=
  match found with
  | Some e => if is_Queue_Empty e then propagate pend else Raised e
  | None => propagate pend
  end.

Inductive log_record :=
| LogDebug (tid : nat) (t : task)             (* line 75 *)
| LogException (tid : nat) (e : exc_info)     (* line 88 *)
| LogInfo (msg : string).                     (* line 142 *)

(** The [Parallel] object shared by all threads, the control state of each
    thread, and a history of what happened: the tasks whose execution began
    ([attempted]), the tasks marked done ([completed]), the failures put on
    the channel ([recorded]), those the caller took from it ([observed]) and
    the calls of [thread.join] ([joined]). *)
Record state := State {
  self : attrs;
  queue : list (nat * task);
  unfinished_tasks : nat;
  exceptions : list exc_info;
  keep_running : bool;
  threads : list wstate;
  caller : mstate;
  log : list log_record;
  attempted : list nat;
  completed : list nat;
  recorded : list (nat * exc_info);
  observed : list exc_info;
  joined : list (nat * Z)
}.

Definition set_queue (q : list (nat * task)) (st : state) : state :=
  State (self st) q (unfinished_tasks st) (exceptions st) (keep_running st)
    (threads st) (caller st) (log st) (attempted st) (completed st)
    (recorded st) (observed st) (joined st).

Definition set_unfinished_tasks (n : nat) (st : state) : state :=
  State (self st) (queue st) n (exceptions st) (keep_running st)
    (threads st) (caller st) (log st) (attempted st) (completed st)
    (recorded st) (observed st) (joined st).

Definition set_exceptions (es : list exc_info) (st : state) : state :=
  State (self st) (queue st) (unfinished_tasks st) es (keep_running st)
    (threads st) (caller st) (log st) (attempted st) (completed st)
    (recorded st) (observed st) (joined st).

Definition set_keep_running (b : bool) (st : state) : state :=
  State (self st) (queue st) (unfinished_tasks st) (exceptions st) b
    (threads st) (caller st) (log st) (attempted st) (completed st)
    (recorded st) (observed st) (joined st).

Definition set_threads (ws : list wstate) (st : state) : state :=
  State (self st) (queue st) (unfinished_tasks st) (exceptions st)
    (keep_running st) ws (caller st) (log st) (attempted st) (completed st)
    (recorded st) (observed st) (joined st).

Definition set_caller (m : mstate) (st : state) : state :=
  State (self st) (queue st) (unfinished_tasks st) (exceptions st)
    (keep_running st) (threads st) m (log st) (attempted st) (completed st)
    (recorded st) (observed st) (joined st).

Definition add_log (r : log_record) (st : state) : state :=
  State (self st) (queue st) (unfinished_tasks st) (exceptions st)
    (keep_running st) (threads st) (caller st) (log st ++ [r]) (attempted st)
    (completed st) (recorded st) (observed st) (joined st).

Definition add_attempted (i : nat) (st : state) : state :=
  State (self st) (queue st) (unfinished_tasks st) (exceptions st)
    (keep_running st) (threads st) (caller st) (log st) (attempted st ++ [i])
    (completed st) (recorded st) (observed st) (joined st).

Definition add_completed (i : nat) (st : state) : state :=
  State (self st) (queue st) (unfinished_tasks st) (exceptions st)
    (keep_running st) (threads st) (caller st) (log st) (attempted st)
    (completed st ++ [i]) (recorded st) (observed st) (joined st).

Definition add_recorded (i : nat) (e : exc_info) (st : state) : state :=
  State (self st) (queue st) (unfinished_tasks st) (exceptions st)
    (keep_running st) (threads st) (caller st) (log st) (attempted st)
    (completed st) (recorded st ++ [(i, e)]) (observed st) (joined st).

Definition add_observed (e : exc_info) (st : state) : state :=
  State (self st) (queue st) (unfinished_tasks st) (exceptions st)
    (keep_running st) (threads st) (caller st) (log st) (attempted st)
    (completed st) (recorded st) (observed st ++ [e]) (joined st).

Definition add_joined (i : nat) (st : state) : state :=
  State (self st) (queue st) (unfinished_tasks st) (exceptions st)
    (keep_running st) (threads st) (caller st) (log st) (attempted st)
    (completed st) (recorded st) (observed st)
    (joined st ++ [(i, timeout (self st))]).

Definition set_thread (i : nat) (w : wstate) (st : state) : state :=
  set_threads (<[i := w]> (threads st)) st.

(** The object as [__init__] leaves it, with [run_threads] about to start. *)
Definition __init__ (p : params) : state :=
  {| self := init_attrs p;
     queue := [];
     unfinished_tasks := 0;
     exceptions := [];
     keep_running := true;
     threads := [];
     caller := MEnqueue;
     log := [];
     attempted := [];
     completed := [];
     recorded := [];
     observed := [];
     joined := [] |}.

(** ** One statement of a worker: [_wrapped]

    Each step makes one access to the shared object. The names the thread
    gives itself (lines 68, 80-85) are local to the thread and read by
    nothing else; they are left out, but for the [AttributeError] of
    [func.__module__] on a dict. A callable that raises outside of
    [Exception] ends its thread, as does [task_done] called once too
    often. *)

Definition _wrapped (i : nat) (st : state) : option state :=
  match threads st !! i with
  | None => None
  | Some WLoop =>
      Some (set_thread i (if keep_running st then WGet else WExit) st)
  | Some WGet =>
      match queue st with
      | [] => Some (set_thread i WExit st)
      | t :: q => Some (set_thread i (WGot t) (set_queue q st))
      end
  | Some (WGot t) =>
      Some (set_thread i (WCall t)
              (add_attempted (fst t) (add_log (LogDebug i (snd t)) st)))
  | Some (WCall t) =>
      match run_task (snd t) with
      | Returns => Some (set_thread i (WTaskDone t) st)
      | Raises e =>
          if is_Exception e then Some (set_thread i (WExcSet t e) st)
          else Some (set_thread i (WDead t) st)
      end
  | Some (WExcSet t e) =>
      Some (set_thread i (WExcLog t e)
              (set_keep_running (run_over_exceptions (self st)) st))
  | Some (WExcLog t e) =>
      Some (set_thread i (WExcPut t e) (add_log (LogException i e) st))
  | Some (WExcPut t e) =>
      Some (set_thread i (WTaskDone t)
              (add_recorded (fst t) e (set_exceptions (exceptions st ++ [e]) st)))
  | Some (WTaskDone t) =>
      match unfinished_tasks st with
      | 0 => Some (set_thread i (WDead t) st)
      | S n =>
          Some (set_thread i WLoop
                  (add_completed (fst t) (set_unfinished_tasks n st)))
      end
  | Some WExit | Some (WDead _) => None
  end.

(** The test of lines 115-116. *)
Definition shape_bad (a : attrs) : bool :=
  (length (funcs a) <? length (args_list a))
  || (length (funcs a) <? length (kwargs_list a)).

(** [str(n)] *)
Definition str_of_nat (n : nat) : string :=
  NilEmpty.string_of_uint (Nat.to_uint n).

Module Sem.
Section Run.

(** [qalib.qabase.formatters.human_readable_time_from_seconds], and the
    rendering of the three lists in the message of line 117; neither is part
    of this module. *)
Variable hrts : float -> string.
Variable format_lists : list pyfunc -> list pyargs -> list pykwargs -> string.

Definition shape_mismatch_error (a : attrs) : exc_info :=
  {| exc_type := "ValueError" :: Exception_bases;
     exc_value :=
       ("List of functions passed into a Parallel object must be longer or equal in length to the list of args and/or kwargs passed to the object.  "
        ++ format_lists (funcs a) (args_list a) (kwargs_list a))%string;
     exc_tb := ["run_threads"] |}.

(** Lines 136-141. *)
Definition progress_message (elapsed : float) (qsize total : nat) : string :=
  ("After " ++ hrts elapsed ++ " " ++ str_of_nat qsize
   ++ " functions pending execution of " ++ str_of_nat total ++ " total")%string.

(** ** One statement of the caller: [run_threads]

    [t1], [t2] and [t3] are what the calls of [time.time()] return, in the
    order the statement makes them: Python floats, that is binary64 numbers,
    which line 135 subtracts and compares as such, the interval being a
    float too (an integer interval stands for the float of its value). The
    enqueueing loop is one step: no
    other thread exists while it runs. [thread.start()] and the [append]
    to [self.threads], a list only the caller reads, are one step.
    [thread.join(timeout)] returns when the thread has ended or the timeout
    has passed, so the caller can always go on. [sleep] changes nothing. *)
Definition run_threads (t1 t2 t3 : float) (st : state) : option state :=
  let a := self st in
  match caller st with
  | MEnqueue =>
      let '(q, err) :=
        enqueue 0 (izip_longest (funcs a) (args_list a) (kwargs_list a)) in
      let st' :=
        set_unfinished_tasks (unfinished_tasks st + length q)
          (set_queue (queue st ++ q) st) in
      Some (set_caller
              (match err with
               | Some e => MFinally (Some e)
               | None => MStart (Z.to_nat (max_workers a))
               end) st')
  | MStart (S k) =>
      Some (set_caller (MStart k) (set_threads (threads st ++ [WLoop]) st))
  | MStart 0 =>
      if shape_bad a
      then Some (set_caller (MFinally (Some (shape_mismatch_error a))) st)
      else Some (set_caller (MLoop t1 t1) st)
  | MLoop start last =>
      match unfinished_tasks st with
      | 0 => Some (set_caller (MFinally None) st)
      | S _ => Some (set_caller (MPoll start last) st)
      end
  | MPoll start last =>
      match exceptions st with
      | [] => Some (set_caller (MProgress start last) st)
      | e :: es =>
          Some (set_caller (MPollSet start last e)
                  (add_observed e (set_exceptions es st)))
      end
  | MPollSet start last e =>
      Some (set_caller
              (if is_Queue_Empty e then MProgress start last
               else MFinally (Some e))
              (set_keep_running (run_over_exceptions a) st))
  | MProgress start last =>
      match output_interval a with
      | None => Some (set_caller (MSleep start last) st)
      | Some interval =>
          if (interval <? t1 - last)%float
          then Some (set_caller (MSleep start t3)
                       (add_log (LogInfo (progress_message (t2 - start)
                                            (length (queue st))
                                            (length (funcs a)))) st))
          else Some (set_caller (MSleep start last) st)
      end
  | MSleep start last => Some (set_caller (MLoop start last) st)
  | MFinally pend =>
      match exceptions st with
      | [] => Some (set_caller (MDone pend None) st)
      | e :: es =>
          Some (set_caller (MFinSet pend e)
                  (add_observed e (set_exceptions es st)))
      end
  | MFinSet pend e =>
      Some (set_caller (MJoin pend e 0)
              (set_keep_running (run_over_exceptions a) st))
  | MJoin pend e k =>
      if k <? length (threads st)
      then Some (set_caller (MJoin pend e (S k)) (add_joined k st))
      else Some (set_caller (MDone pend (Some e)) st)
  | MDone _ _ => None
  end.

(** ** Interleavings *)

Inductive action :=
| ActCaller (t1 t2 t3 : float)
| ActWorker (i : nat).

Definition act (a : action) (st : state) : option state :=
  match a with
  | ActCaller t1 t2 t3 => run_threads t1 t2 t3 st
  | ActWorker i => _wrapped i st
  end.

Fixpoint run (acts : list action) (st : state) : option state :=
  match acts with
  | [] => Some st
  | a :: rest =>
      match act a st with
      | Some st' => run rest st'
      | None => None
      end
  end.

Definition step (st st' : state) : Prop := exists a, act a st = Some st'.

Definition reachable (p : params) (st : state) : Prop := rtc step (__init__ p) st.

(** What the call of [run_threads] gave its caller, once it is over. *)
Definition run_result (st : state) : option result :=
  match caller st with
  | MDone pend found => Some (outcome_of pend found)
  | _ => None
  end.

End Run.
End Sem.
Import Sem.

(** ** Who holds which task *)

(** The position of the task a worker has taken off the queue and not yet
    begun, and of the task it has begun and not yet marked done. *)
Definition w_pulled (w : wstate) : list nat :=
  match w with
  | WGot t => [fst t]
  | _ => []
  end.

Definition w_running (w : wstate) : list nat :=
  match w with
  | WCall t | WExcSet t _ | WExcLog t _ | WExcPut t _ | WTaskDone t
  | WDead t => [fst t]
  | _ => []
  end.

Definition pulled (ws : list wstate) : list nat := ws ≫= w_pulled.
Definition running (ws : list wstate) : list nat := ws ≫= w_running.

(** The triples [run_threads] iterates over, and those it puts on the
    queue. *)
Definition tasks_of (p : params) : list task :=
  izip_longest (funcs (init_attrs p)) (args_list (init_attrs p))
    (kwargs_list (init_attrs p)).

Definition enqueued (p : params) : list (nat * task) :=
  fst (enqueue 0 (tasks_of p)).

(** What is known of a worker from where it stands. *)
Definition worker_ok (p : params) (st : state) (w : wstate) : Prop :=
  match w with
  | WLoop | WGet | WExit => True
  | WGot t | WCall t => t ∈ enqueued p
  | WExcSet t e =>
      t ∈ enqueued p ∧ run_task (snd t) = Raises e ∧ is_Exception e = true
  | WExcLog t e =>
      t ∈ enqueued p ∧ run_task (snd t) = Raises e ∧ is_Exception e = true
  | WExcPut t e =>
      t ∈ enqueued p ∧ run_task (snd t) = Raises e ∧ is_Exception e = true
      ∧ ∃ tid, LogException tid e ∈ log st
  | WTaskDone t =>
      t ∈ enqueued p ∧
      match run_task (snd t) with
      | Returns => True
      | Raises e => (fst t, e) ∈ recorded st
      end
  | WDead t =>
      t ∈ enqueued p ∧ ∃ e, run_task (snd t) = Raises e ∧ is_Exception e = false
  end.

(** ** Invariants of a run *)

(** Once the tasks are on the queue: every position is in exactly one of
    the queue, a worker that pulled it, and the attempts; every attempt is
    running or completed; [unfinished_tasks] counts what is not completed;
    every failure of a completed task was put on the channel, and logged
    before that; the channel holds the failures not yet taken. *)
Definition tasks_inv (p : params) (st : state) : Prop :=
  seq 0 (length (enqueued p))
    ≡ₚ (queue st).*1 ++ pulled (threads st) ++ attempted st
  ∧ attempted st ≡ₚ running (threads st) ++ completed st
  ∧ unfinished_tasks st
    = length (queue st) + length (pulled (threads st))
      + length (running (threads st))
  ∧ (∀ t, t ∈ queue st → t ∈ enqueued p)
  ∧ Forall (worker_ok p st) (threads st)
  ∧ (∀ t, t ∈ enqueued p → t.1 ∈ completed st →
       match run_task t.2 with
       | Returns => True
       | Raises e => (t.1, e) ∈ recorded st
       end)
  ∧ (∀ j e, (j, e) ∈ recorded st →
       (∃ tid, LogException tid e ∈ log st)
       ∧ ∃ t, (j, t) ∈ enqueued p ∧ run_task t = Raises e
              ∧ is_Exception e = true)
  ∧ (recorded st).*2 = observed st ++ exceptions st.

Definition pool_inv (p : params) (st : state) : Prop :=
  (caller st = MEnqueue ∧ st = __init__ p)
  ∨ (caller st ≠ MEnqueue ∧ tasks_inv p st).

(** ** Invariants of the caller *)

(** The failures among [l] that [except Queue.Empty] lets through. *)
Definition visible (l : list exc_info) : list exc_info :=
  filter (λ e, is_Queue_Empty e = false) l.

(** [e] is one of the two errors [run_threads] raises itself, and the input
    is one for which it does. *)
Definition config_error (fmt : list pyfunc → list pyargs → list pykwargs → string)
    (p : params) (e : exc_info) : Prop :=
  (e = args_shape_error ∧ (enqueue 0 (tasks_of p)).2 = Some e)
  ∨ (e = shape_mismatch_error fmt (init_attrs p)
     ∧ (enqueue 0 (tasks_of p)).2 = None
     ∧ shape_bad (init_attrs p) = true).

(** What left the [try] body, against what the caller took from the
    channel there. *)
Definition pend_ok (fmt : list pyfunc → list pyargs → list pykwargs → string)
    (p : params) (obs : list exc_info) (pend : option exc_info) : Prop :=
  match pend with
  | None =>
      visible obs = [] ∧ (enqueue 0 (tasks_of p)).2 = None
      ∧ shape_bad (init_attrs p) = false
  | Some e =>
      (config_error fmt p e ∧ obs = [])
      ∨ (visible obs = [e] ∧ (enqueue 0 (tasks_of p)).2 = None
         ∧ shape_bad (init_attrs p) = false)
  end.

Definition joins_upto (a : attrs) (k : nat) : list (nat * Z) :=
  (λ i, (i, timeout a)) <$> seq 0 k.

Definition caller_inv (fmt : list pyfunc → list pyargs → list pykwargs → string)
    (p : params) (st : state) : Prop :=
  match caller st with
  | MEnqueue => observed st = [] ∧ joined st = []
  | MStart _ =>
      observed st = [] ∧ joined st = [] ∧ (enqueue 0 (tasks_of p)).2 = None
  | MLoop _ _ | MPoll _ _ | MProgress _ _ | MSleep _ _ =>
      pend_ok fmt p (observed st) None ∧ joined st = []
  | MPollSet _ _ e =>
      (∃ obs, observed st = obs ++ [e] ∧ pend_ok fmt p obs None)
      ∧ joined st = []
  | MFinally pend =>
      pend_ok fmt p (observed st) pend ∧ joined st = []
      ∧ (pend = None → unfinished_tasks st = 0)
  | MFinSet pend e =>
      (∃ obs, observed st = obs ++ [e] ∧ pend_ok fmt p obs pend)
      ∧ joined st = []
      ∧ (pend = None → unfinished_tasks st = 0)
  | MJoin pend e k =>
      (∃ obs, observed st = obs ++ [e] ∧ pend_ok fmt p obs pend)
      ∧ joined st = joins_upto (self st) k ∧ k ≤ length (threads st)
      ∧ (pend = None → unfinished_tasks st = 0)
  | MDone pend (Some e) =>
      (∃ obs, observed st = obs ++ [e] ∧ pend_ok fmt p obs pend)
      ∧ joined st = joins_upto (self st) (length (threads st))
      ∧ (pend = None → unfinished_tasks st = 0)
  | MDone pend None =>
      pend_ok fmt p (observed st) pend ∧ joined st = []
      ∧ (pend = None → unfinished_tasks st = 0 ∧ exceptions st = [])
  end.

(** The number of threads [run_threads] has started so far. *)
Definition threads_inv (p : params) (st : state) : Prop :=
  match caller st with
  | MEnqueue => threads st = []
  | MStart k =>
      length (threads st) + k = Z.to_nat (max_workers (init_attrs p))
  | _ =>
      match (enqueue 0 (tasks_of p)).2 with
      | Some _ => threads st = []
      | None => length (threads st) = Z.to_nat (max_workers (init_attrs p))
      end
  end.

(** ** Inputs *)

(** [p] with both flags of the override left at their default. *)
Definition fail_fast_params (p : params) : params :=
  {| p_funcs := p_funcs p;
     p_args_list := p_args_list p;
     p_kwargs_list := p_kwargs_list p;
     p_max_workers := p_max_workers p;
     p_timeout := p_timeout p;
     p_run_over_exceptions := false;
     p_i_know_what_im_doing := false;
     p_output_interval := p_output_interval p |}.

(** Stand-ins for the two renderings the module takes from elsewhere: the
    whole seconds of a time, and the lengths of the three lists. *)
Definition float_floor (x : float) : Z :=
  match Prim2SF x with
  | S754_finite false m e => Z.shiftl (Z.pos m) e
  | _ => 0
  end.

Definition sample_hrts (x : float) : string :=
  (str_of_nat (Z.to_nat (float_floor x)) ++ " seconds")%string.

Definition sample_format_lists (fs : list pyfunc) (az : list pyargs)
    (ks : list pykwargs) : string :=
  (str_of_nat (length fs) ++ ", " ++ str_of_nat (length az) ++ ", "
   ++ str_of_nat (length ks))%string.

Definition noop : pyfunc := PyFunction "tests" "noop" (λ _ _, Returns).

(** [Parallel([noop, noop], args_list=["ab"])] *)
Definition bare_string_params : params :=
  {| p_funcs := [noop; noop];
     p_args_list := Some [ArgsUnicode "ab"];
     p_kwargs_list := None;
     p_max_workers := 5;
     p_timeout := 3600;
     p_run_over_exceptions := false;
     p_i_know_what_im_doing := false;
     p_output_interval := None |}.

(** [Parallel([noop, noop], args_list=[(1,)])] *)
Definition padded_params : params :=
  {| p_funcs := [noop; noop];
     p_args_list := Some [ArgsTuple [PyInt 1]];
     p_kwargs_list := None;
     p_max_workers := 5;
     p_timeout := 3600;
     p_run_over_exceptions := false;
     p_i_know_what_im_doing := false;
     p_output_interval := None |}.

(** The enqueueing loop puts every padded triple on the queue. *)
Definition all_triples_enqueued
    (hrts : float → string)
    (fmt : list pyfunc → list pyargs → list pykwargs → string)
    (p : params) : Prop :=
  ∀ t1 t2 t3 st',
    run_threads hrts fmt t1 t2 t3 (__init__ p) = Some st' →
    (queue st').*2 = tasks_of p.

(** ** A pool with nothing to do *)

(** A worker that holds no task. *)
Definition idle (w : wstate) : Prop := w = WLoop ∨ w = WGet ∨ w = WExit.

(** The caller is outside the body of the supervisor loop and has no
    exception in hand. *)
Definition outside_loop (m : mstate) : Prop :=
  match m with
  | MEnqueue | MStart _ | MLoop _ _ | MFinally None | MDone None None => True
  | _ => False
  end.

(** The statements the caller still has to run when no task was
    enqueued. *)
Definition statements_left (workers : nat) (m : mstate) : nat :=
  match m with
  | MEnqueue => workers + 4
  | MStart k => k + 3
  | MLoop _ _ => 2
  | MFinally _ => 1
  | _ => 0
  end.

(** The position of the task a worker holds, pulled or begun. *)
Definition holding (w : wstate) : list nat := w_pulled w ++ w_running w.

(** [Parallel([noop, noop, noop], max_workers=2)] *)
Definition three_noops_params : params :=
  {| p_funcs := [noop; noop; noop];
     p_args_list := None;
     p_kwargs_list := None;
     p_max_workers := 2;
     p_timeout := 3600;
     p_run_over_exceptions := false;
     p_i_know_what_im_doing := false;
     p_output_interval := None |}.

(** [Parallel([], max_workers=2)] *)
Definition empty_params : params :=
  {| p_funcs := [];
     p_args_list := None;
     p_kwargs_list := None;
     p_max_workers := 2;
     p_timeout := 3600;
     p_run_over_exceptions := false;
     p_i_know_what_im_doing := false;
     p_output_interval := None |}.

(** [Parallel([noop], max_workers=1, output_interval=1)], and the caller
    going from the start of [run_threads] to the progress step of the first
    iteration of its loop, with the clock at 0. *)
Definition progress_params : params :=
  {| p_funcs := [noop];
     p_args_list := None;
     p_kwargs_list := None;
     p_max_workers := 1;
     p_timeout := 3600;
     p_run_over_exceptions := false;
     p_i_know_what_im_doing := false;
     p_output_interval := Some 1%float |}.

Definition progress_schedule : list action :=
  replicate 5 (ActCaller 0 0 0).

(** [ValueError(msg)] raised inside a task. *)
Definition boom (msg : string) : exc_info :=
  {| exc_type := "ValueError" :: Exception_bases;
     exc_value := msg;
     exc_tb := ["_wrapped"; "task"] |}.

(** [Queue.Empty()] raised inside a task, as [get_nowait] does on an empty
    queue of the task's own. *)
Definition queue_empty : exc_info :=
  {| exc_type := ["Queue.Empty"; "Exception"; "BaseException"; "object"];
     exc_value := EmptyString;
     exc_tb := ["_wrapped"; "task"; "get_nowait"] |}.

Definition raising (name : string) (e : exc_info) : pyfunc :=
  PyFunction "tests" name (λ _ _, Raises e).

Definition callers (n : nat) : list action := replicate n (ActCaller 0 0 0).
Definition workers (i n : nat) : list action := replicate n (ActWorker i).

(** [Parallel([a, b, noop], max_workers=3)] where [a] and [b] raise. Two
    workers take [a] and [b], the third passes the flag test; [a] fails and
    is recorded; the caller polls and takes the record; the third worker
    pulls [noop]. From there: the third worker begins [noop], [b] fails and
    is recorded, the caller leaves the loop and finalizes while the workers
    return. *)
Definition two_failures_params : params :=
  {| p_funcs := [raising "a" (boom "a"); raising "b" (boom "b"); noop];
     p_args_list := None;
     p_kwargs_list := None;
     p_max_workers := 3;
     p_timeout := 3600;
     p_run_over_exceptions := false;
     p_i_know_what_im_doing := false;
     p_output_interval := None |}.

Definition first_failure_observed : list action :=
  callers 5 ++ workers 0 4 ++ workers 1 4 ++ workers 2 1 ++ workers 0 3
  ++ callers 2 ++ workers 2 1.

Definition two_failures_schedule : list action :=
  first_failure_observed
  ++ workers 2 1 ++ workers 1 3 ++ callers 3 ++ workers 0 2 ++ workers 1 2
  ++ workers 2 3 ++ callers 4.

(** [run_threads] raises the first failure its caller observed. *)
Definition reraises_first_observed
    (hrts : float → string)
    (fmt : list pyfunc → list pyargs → list pykwargs → string)
    (p : params) : Prop :=
  ∀ st r e,
    reachable hrts fmt p st → run_result st = Some r →
    head (observed st) = Some e → r = Raised e.

(** No task begins once the caller has observed a failure. *)
Definition no_start_after_observed
    (hrts : float → string)
    (fmt : list pyfunc → list pyargs → list pykwargs → string)
    (p : params) : Prop :=
  ∀ st st',
    reachable hrts fmt p st → observed st ≠ [] → step hrts fmt st st' →
    attempted st' = attempted st.

(** [Parallel([noop], args_list=[(), ()], max_workers=2)]: one callable for
    two argument tuples. The second worker runs the padded task to its
    failure record before the caller reaches the test of line 115. *)
Definition shape_race_params : params :=
  {| p_funcs := [noop];
     p_args_list := Some [ArgsTuple []; ArgsTuple []];
     p_kwargs_list := None;
     p_max_workers := 2;
     p_timeout := 3600;
     p_run_over_exceptions := false;
     p_i_know_what_im_doing := false;
     p_output_interval := None |}.

Definition shape_race_schedule : list action :=
  callers 3 ++ workers 0 2 ++ workers 1 7 ++ callers 3 ++ workers 1 2
  ++ workers 0 4 ++ callers 3.

(** [Parallel([f], max_workers=1)] where [f] raises [Queue.Empty]. The
    worker runs the task, records the failure and returns; then the caller
    tests the loop and finalizes. *)
Definition empty_failure_params : params :=
  {| p_funcs := [raising "drain" queue_empty];
     p_args_list := None;
     p_kwargs_list := None;
     p_max_workers := 1;
     p_timeout := 3600;
     p_run_over_exceptions := false;
     p_i_know_what_im_doing := false;
     p_output_interval := None |}.

Definition empty_failure_schedule : list action :=
  callers 3 ++ workers 0 9 ++ callers 5.

(** Five tasks, the third of which raises, in override mode with one
    worker, which runs them all and returns before the caller polls. *)
Definition override_params : params :=
  {| p_funcs := [noop; noop; raising "third" (boom "boom"); noop; noop];
     p_args_list := None;
     p_kwargs_list := None;
     p_max_workers := 1;
     p_timeout := 3600;
     p_run_over_exceptions := true;
     p_i_know_what_im_doing := true;
     p_output_interval := None |}.


(** ** Thread names *)

(** [s.split(sep)] for a separator of one character. *)
Fixpoint str_split (sep : ascii) (s : string) : list string :=
  match s with
  | EmptyString => [EmptyString]
  | String c s' =>
      if Ascii.eqb c sep then EmptyString :: str_split sep s'
      else
        match str_split sep s' with
        | seg :: rest => String c seg :: rest
        | [] => [String c EmptyString]
        end
  end.

(** [name.split('-')[-1]] *)
Definition last_segment (name : string) : string :=
  default EmptyString (last (str_split "-"%char name)).

(** Lines 60-65: the name [func] gives the current thread, whose name is
    [name]; the fill value has no [__module__]. *)
Definition _set_current_thread_name_from_func_name (func : pyfunc)
    (name : string) : exc_info + string :=
  let orig_thread_number := last_segment name in
  match func with
  | PyFunction f_module f_name _ =>
      inr ("Parallel-" ++ f_module ++ "." ++ f_name ++ "-"
           ++ orig_thread_number)%string
  | FuncFill => inl attribute_error
  end.

(** Line 68: the name a worker takes when it starts. *)
Definition worker_name (thread_name : string) : string :=
  ("Parallel-Worker-" ++ thread_name)%string.

(** Lines 80-86 for one task: the thread is renamed after the function, and
    gets its former name back only when the call returns. *)
Definition name_after_task (name : string) (t : task) : string :=
  let orig_name := name in
  match _set_current_thread_name_from_func_name t.1.1 name with
  | inl _ => name
  | inr renamed =>
      match run_task t with
      | Returns => orig_name
      | Raises _ => renamed
      end
  end.

(** The name of a worker started as [thread_name] once it has handled the
    tasks [ts], one after the other. *)
Definition name_after (thread_name : string) (ts : list task) : string :=
  foldl name_after_task (worker_name thread_name) ts.

(** The module and name of the function of [t], when the call of [t]
    raises. *)
Definition failed_label (t : task) : option (string * string) :=
  match t with
  | (PyFunction f_module f_name _, _, _) =>
      match run_task t with
      | Raises _ => Some (f_module, f_name)
      | Returns => None
      end
  | (FuncFill, _, _) => None
  end.

Definition last_failed (ts : list task) : option (string * string) :=
  last (omap failed_label ts).

(** ** Workers past the loop test *)

(** A worker that has passed the test of line 70 and not yet begun the task
    of this iteration: it is about to call [queue.get], or holds what it
    returned. *)
Definition w_late (w : wstate) : nat :=
  match w with
  | WGet | WGot _ => 1
  | _ => 0
  end.

Definition late (ws : list wstate) : nat := sum_list (w_late <$> ws).

(** ** The log *)

(** The tasks named by the debug lines of line 75, the failures reported by
    [log.exception] at line 88, and the progress messages of line 142, each
    in the order logged. *)
Definition debug_lines (l : list log_record) : list task :=
  omap (λ r, match r with LogDebug _ t => Some t | _ => None end) l.

Definition exception_lines (l : list log_record) : list exc_info :=
  omap (λ r, match r with LogException _ e => Some e | _ => None end) l.

Definition info_lines (l : list log_record) : list string :=
  omap (λ r, match r with LogInfo msg => Some msg | _ => None end) l.

(** The failure a worker has logged and not yet put on the channel. *)
Definition w_logged (w : wstate) : list exc_info :=
  match w with
  | WExcPut _ e => [e]
  | _ => []
  end.

(** ** A single worker and a failing task *)

(** [Parallel([noop, f], max_workers=1)] where [f] raises
    [ValueError("boom")]: the worker runs both tasks and returns, then the
    caller leaves the loop and finalizes. *)
Definition second_fails_params : params :=
  {| p_funcs := [noop; raising "f" (boom "boom")];
     p_args_list := None;
     p_kwargs_list := None;
     p_max_workers := 1;
     p_timeout := 3600;
     p_run_over_exceptions := false;
     p_i_know_what_im_doing := false;
     p_output_interval := None |}.

Definition second_fails_schedule : list action :=
  callers 3 ++ workers 0 14 ++ callers 5.

(** [Parallel([noop, noop, noop], max_workers=2)] with the first worker
    running all three tasks. *)
Definition three_noops_schedule : list action :=
  callers 4 ++ workers 0 15 ++ callers 2.

(** What is left of the run of [two_failures_params] once the caller has
    taken the first record. *)
Definition after_first_failure : list action :=
  workers 2 1 ++ workers 1 3 ++ callers 3 ++ workers 0 2 ++ workers 1 2
  ++ workers 2 3 ++ callers 4.

(** [KeyboardInterrupt()] raised inside a task: not an [Exception]. *)
Definition interrupt : exc_info :=
  {| exc_type := ["KeyboardInterrupt"; "BaseException"; "object"];
     exc_value := EmptyString;
     exc_tb := ["_wrapped"; "task"] |}.

(** [Parallel([f], max_workers=1)] where [f] raises [KeyboardInterrupt]:
    the worker begins the task and dies. *)
Definition interrupted_params : params :=
  {| p_funcs := [raising "stop" interrupt];
     p_args_list := None;
     p_kwargs_list := None;
     p_max_workers := 1;
     p_timeout := 3600;
     p_run_over_exceptions := false;
     p_i_know_what_im_doing := false;
     p_output_interval := None |}.

Definition interrupted_schedule : list action :=
  callers 3 ++ workers 0 4.

(** ** What a run has left to do *)

(** The statements a worker has left before it is back at the test of its
    loop, counted so that every statement of a worker lowers [work]: a task
    on the queue stands for the nine statements of its iteration. *)
Definition w_pos (w : wstate) : nat :=
  match w with
  | WExit | WDead _ => 0
  | WGet => 1
  | WLoop => 2
  | WTaskDone _ => 4
  | WExcPut _ _ => 5
  | WExcLog _ _ => 6
  | WExcSet _ _ => 7
  | WCall _ => 8
  | WGot _ => 9
  end.

Definition work (st : state) : nat :=
  9 * length (queue st) + sum_list (w_pos <$> threads st).

(** The statements the caller has left, counting an iteration of its loop
    from the point where it can leave it: the poll when a record waits on
    the channel, the test of the pending count otherwise. *)
Definition caller_left (st : state) : nat :=
  let n := length (threads st) in
  let waiting := match exceptions st with [] => false | _ => true end in
  match caller st with
  | MEnqueue =>
      n + 10 + 22 * Z.to_nat (max_workers (self st))
      + 90 * length (izip_longest (funcs (self st)) (args_list (self st))
                       (kwargs_list (self st)))
  | MStart k => n + 9 + 22 * k
  | MLoop _ _ => n + 4 + (if waiting then 2 else 1)
  | MPoll _ _ => n + 4 + (if waiting then 1 else 4)
  | MPollSet _ _ _ => n + 4
  | MProgress _ _ => n + 4 + (if waiting then 4 else 3)
  | MSleep _ _ => n + 4 + (if waiting then 3 else 2)
  | MFinally _ => n + 3
  | MFinSet _ _ => n + 2
  | MJoin _ _ k => n - k + 1
  | MDone _ _ => 0
  end.

Definition left_to_do (st : state) : nat := 10 * work st + caller_left st.

(** * Properties *)

Section Proofs.

Variable hrts : float -> string.
Variable format_lists : list pyfunc -> list pyargs -> list pykwargs -> string.

Local Abbreviation step := (step hrts format_lists).
Local Abbreviation reachable := (reachable hrts format_lists).
Local Abbreviation run_threads := (run_threads hrts format_lists).
Local Abbreviation act := (act hrts format_lists).
Local Abbreviation run := (run hrts format_lists).

(** Case analysis on one statement of one thread. *)
Ltac step_cases H :=
  let a := fresh "a" in
  destruct H as [a H]; destruct a as [? ? ?|?]; simpl in H;
  [ unfold Sem.run_threads in H | unfold _wrapped in H ];
  repeat case_match; simplify_eq.

Lemma reachable_init p : reachable p (__init__ p).
Proof. apply rtc_refl. Qed.

Lemma reachable_step p st st' : reachable p st → step st st' → reachable p st'.
Proof. intros H1 H2. eapply rtc_r; eauto. Qed.

Lemma reachable_ind (p : params) (P : state → Prop) :
  P (__init__ p) →
  (∀ st st', reachable p st → P st → step st st' → P st') →
  ∀ st, reachable p st → P st.
Proof.
  intros H0 Hs st Hr. unfold Sem.reachable in Hr.
  apply (rtc_ind_r (λ st, reachable p st ∧ P st) (__init__ p)) in Hr as [_ ?];
    [done|by split; [apply rtc_refl|]|].
  intros y z _ Hyz [Hy HP]. split; [eapply rtc_r; eauto|eauto].
Qed.

(** ** The attributes stay as [__init__] set them *)

Lemma self_const p st : reachable p st → self st = init_attrs p.
Proof.
  revert st. apply reachable_ind; [done|].
  intros st st' _ IH H. step_cases H; done.
Qed.

(** ** Lists of workers *)

Lemma bind_insert_split {A B} (f : A → list B) (ws : list A) i w w' :
  ws !! i = Some w →
  ∃ rest, ws ≫= f ≡ₚ f w ++ rest ∧ <[i:=w']> ws ≫= f ≡ₚ f w' ++ rest.
Proof.
  intros Hi. exists ((take i ws ≫= f) ++ (drop (S i) ws ≫= f)). split.
  - rewrite <- (take_drop_middle ws i w Hi) at 1.
    rewrite bind_app, bind_cons. solve_Permutation.
  - rewrite insert_take_drop by (eapply lookup_lt_Some; eauto).
    rewrite bind_app, bind_cons. solve_Permutation.
Qed.

(** ** What [enqueue] puts on the queue *)

Lemma enqueue_fst_seq i ts :
  (enqueue i ts).1.*1 = seq i (length (enqueue i ts).1).
Proof.
  revert i. induction ts as [|[[f a] k] ts IH]; intros i; simpl; [done|].
  destruct (is_basestring a); [done|].
  specialize (IH (S i)). destruct (enqueue (S i) ts) as [q err]; simpl in *.
  by f_equal.
Qed.

Lemma enqueue_lookup i ts j t :
  (j, t) ∈ (enqueue i ts).1 → i ≤ j ∧ ts !! (j - i) = Some t.
Proof.
  revert i. induction ts as [|[[f a] k] ts IH]; intros i; simpl.
  { by intros ?%elem_of_nil. }
  destruct (is_basestring a); [by intros ?%elem_of_nil|].
  specialize (IH (S i)). destruct (enqueue (S i) ts) as [q err]; simpl in *.
  intros [?|Hin]%elem_of_cons; simplify_eq.
  - by rewrite Nat.sub_diag.
  - destruct (IH Hin) as [Hle Hl]. split; [lia|].
    replace (j - i) with (S (j - S i)) by lia. done.
Qed.

Lemma enqueue_all i ts :
  Forall (λ t : task, is_basestring t.1.2 = false) ts →
  enqueue i ts = (zip (seq i (length ts)) ts, None).
Proof.
  intros H. revert i. induction H as [|[[f a] k] ts Ha _ IH]; intros i; [done|].
  simpl in *. rewrite Ha, IH. done.
Qed.

Lemma enqueue_stops i ts :
  Exists (λ t : task, is_basestring t.1.2 = true) ts →
  (enqueue i ts).2 = Some args_shape_error.
Proof.
  intros H. revert i. induction ts as [|[[f a] k] ts IH]; intros i.
  { by apply Exists_nil in H. }
  simpl. destruct (is_basestring a) eqn:Ha; [done|].
  apply Exists_cons in H as [H|H]; [simpl in H; congruence|].
  specialize (IH H (S i)). by destruct (enqueue (S i) ts).
Qed.

Lemma enqueue_error i ts e :
  (enqueue i ts).2 = Some e → e = args_shape_error.
Proof.
  revert i. induction ts as [|[[f a] k] ts IH]; intros i; simpl; [done|].
  destruct (is_basestring a); [by intros [= <-]|].
  specialize (IH (S i)). by destruct (enqueue (S i) ts).
Qed.

Lemma enqueued_inj p t t' :
  t ∈ enqueued p → t' ∈ enqueued p → t.1 = t'.1 → t = t'.
Proof.
  unfold enqueued. intros H H' Heq.
  destruct t as [j t], t' as [j' t']; simpl in *; subst j'.
  apply enqueue_lookup in H as [_ H]. apply enqueue_lookup in H' as [_ H'].
  congruence.
Qed.

Lemma worker_ok_mono p st st' w :
  (∀ x, x ∈ log st → x ∈ log st') →
  (∀ x, x ∈ recorded st → x ∈ recorded st') →
  worker_ok p st w → worker_ok p st' w.
Proof.
  intros Hl Hrec. destruct w; simpl; try done.
  - intros (? & ? & ? & tid & ?). eauto 10.
  - intros [? H]. split; [done|]. destruct (run_task _); auto.
Qed.

Lemma workers_ok_mono p st st' ws :
  (∀ x, x ∈ log st → x ∈ log st') →
  (∀ x, x ∈ recorded st → x ∈ recorded st') →
  Forall (worker_ok p st) ws → Forall (worker_ok p st') ws.
Proof. intros ? ? H. eapply Forall_impl; [exact H|]. eauto using worker_ok_mono. Qed.

(** Rewrites the tasks held by the workers before and after worker [i]
    moved from [w] to [w'], in the goal and in the hypotheses [P1 P2 P3]. *)
Ltac split_workers P1 P2 P3 :=
  match goal with
  | Hi : threads ?st !! ?i = Some ?w |- context [<[?i := ?w']> (threads ?st)] =>
      destruct (bind_insert_split w_pulled (threads st) i w w' Hi)
        as (rp & Hp1 & Hp2);
      destruct (bind_insert_split w_running (threads st) i w w' Hi)
        as (rr & Hr1 & Hr2);
      unfold pulled, running in *; simpl in Hp1, Hp2, Hr1, Hr2;
      rewrite ?Hp2, ?Hr2;
      rewrite ?Hp1 in P1; rewrite ?Hr1 in P2; rewrite ?Hp1, ?Hr1 in P3
  end.

Lemma running_length_pos ws i w :
  ws !! i = Some w → w_running w ≠ [] → 0 < length (running ws).
Proof.
  intros Hi Hw. destruct (bind_insert_split w_running ws i w w Hi) as (r & H & _).
  unfold running. rewrite H, length_app. destruct (w_running w); [done|simpl; lia].
Qed.

Lemma pool_inv_reachable p st : reachable p st → pool_inv p st.
Proof.
  revert st. apply reachable_ind; [by left|].
  intros st st' Hr IH Hstep.
  pose proof (self_const _ _ Hr) as Hself.
  destruct IH as [[Hc ->]|[Hc IH]].
  - step_cases Hstep; simpl in *; try done.
    all: right; (split; [simpl; try done; by case_match|]).
    all: unfold tasks_inv; simpl.
    all: assert (enqueued p = l) as ->
      by (unfold enqueued, tasks_of; simpl; by rewrite H0).
    all: pose proof (enqueue_fst_seq 0 (tasks_of p)) as Hseq;
      unfold tasks_of in Hseq; simpl in Hseq; rewrite H0 in Hseq; simpl in Hseq.
    all: rewrite app_nil_r, Hseq; split_and!; try done; try lia.
    all: try by intros ? ? ?%elem_of_nil.
    all: try by intros ? ? ?%elem_of_nil.
  - destruct IH as (P1 & P2 & P3 & P4 & P5 & P6 & P7 & P8).
    step_cases Hstep; right; (split; [simpl; try done; by case_match|]).
    all: unfold tasks_inv; simpl in *.
    all: try match goal with
         | Hi : threads _ !! _ = Some _ |- _ =>
             pose proof (Forall_lookup_1 _ _ _ _ P5 Hi) as Hw; simpl in Hw
         end.
    all: try match goal with
         | Hq : queue _ = _ |- _ => rewrite Hq in *
         end.
    all: split_and!; try done; try lia.
    all: try (eapply workers_ok_mono; [| |exact P5]; simpl; by auto).
    all: try (apply Forall_insert;
              [eapply workers_ok_mono; [| |exact P5]; simpl; set_solver|]).
    all: try (split_workers P1 P2 P3; first
           [ rewrite P1; simpl; solve_Permutation
           | rewrite P2; simpl; solve_Permutation
           | rewrite ?length_app in *; simpl in *; lia ]).
    all: try (rewrite <- app_assoc; simpl; congruence).
    all: try congruence.
    all: try (intros j e' Hin; destruct (P7 j e' Hin) as [[tid Hl] Ht];
              split; [exists tid; set_solver|done]).
    all: try (simpl; simpl in Hw; by intuition eauto).
    1-3: unfold pulled, running in *; rewrite !bind_app; simpl;
      rewrite !app_nil_r; done.
    1: apply Forall_app; split;
      [eapply workers_ok_mono; [| |exact P5]; simpl; by auto
      |by repeat constructor].
    1: eapply workers_ok_mono; [| |exact P5]; simpl; set_solver.
    + intros; apply P4; set_solver.
    + simpl. apply P4. set_solver.
    + simpl. split; [done|].
      by match goal with H : run_task _ = Returns |- _ => rewrite H end.
    + simpl. destruct Hw as (? & ? & ?). split_and!; try done.
      exists i. set_solver.
    + simpl. destruct Hw as (? & -> & ?). split; [tauto|]. set_solver.
    + intros t0 Ht0 Hc0. specialize (P6 t0 Ht0 Hc0).
      destruct (run_task t0.2); set_solver.
    + intros j e0 [Hin|Hin%list_elem_of_singleton]%elem_of_app; [by apply P7|].
      simplify_eq. destruct Hw as (? & ? & ? & ?). split; [done|].
      exists t.2. by destruct t.
    + rewrite fmap_app, P8, app_assoc. done.
    + exfalso. pose proof (running_length_pos _ _ _ H) as Hpos.
      simpl in Hpos. specialize (Hpos ltac:(done)). lia.
    + intros t0 Ht0 [Hc0|Hc0%list_elem_of_singleton]%elem_of_app; [by apply P6|].
      destruct Hw as [Ht Hw]. by rewrite (enqueued_inj p t0 t Ht0 Ht Hc0).
Qed.

(** ** The caller *)

Lemma joins_upto_S a k :
  joins_upto a (S k) = joins_upto a k ++ [(k, timeout a)].
Proof. unfold joins_upto. by rewrite seq_S, fmap_app. Qed.

Lemma visible_app l k : visible (l ++ k) = visible l ++ visible k.
Proof. apply filter_app. Qed.

Lemma visible_Empty e : is_Queue_Empty e = true → visible [e] = [].
Proof. intros H. unfold visible. rewrite filter_cons_False; [done|congruence]. Qed.

Lemma visible_not_Empty e : is_Queue_Empty e = false → visible [e] = [e].
Proof. intros H. unfold visible. by rewrite filter_cons_True. Qed.

Lemma enqueue_self p st :
  self st = init_attrs p →
  enqueue 0 (izip_longest (funcs (self st)) (args_list (self st))
               (kwargs_list (self st)))
  = enqueue 0 (tasks_of p).
Proof. by intros ->. Qed.

Lemma caller_inv_reachable p st : reachable p st → caller_inv format_lists p st.
Proof.
  revert st. apply reachable_ind; [done|].
  intros st st' Hr IH Hstep.
  pose proof (self_const _ _ Hr) as Hself.
  pose proof (pool_inv_reachable _ _ Hr) as Hpool.
  step_cases Hstep; unfold caller_inv, pend_ok in IH |- *;
    cbn [caller self observed joined unfinished_tasks threads exceptions
         set_caller set_queue set_unfinished_tasks set_exceptions
         set_keep_running set_threads add_log add_attempted add_completed
         add_recorded add_observed add_joined set_thread].
  all: try match goal with H : caller _ = _ |- _ => rewrite H in IH end.
  all: try match goal with
       | |- context [caller ?s] =>
           destruct (caller s) as [| | | | | | | |? ?|? ? ?|? [?|]] eqn:Hcaller
       end.
  all: try rewrite length_insert.
  all: try done.
  all: try (by intuition (try lia; try done)).
  all: try match goal with
       | H : enqueue _ _ = _ |- _ => rewrite (enqueue_self p st Hself) in H
       end.
  all: repeat match goal with
       | H : ∃ _, _ |- _ => destruct H
       | H : _ ∧ _ |- _ => destruct H
       end.
  all: split_and?; try done; try reflexivity.
  all: try (by eexists; split; [reflexivity|]).
  all: try match goal with
       | Ho : observed _ = _ |- _ => rewrite Ho in *
       end.
  all: rewrite ?visible_app.
  all: repeat match goal with
       | Hv : visible _ = _ |- _ => rewrite Hv
       | Hj : joined _ = _ |- _ => rewrite Hj
       | He : enqueue _ _ = _ |- _ => rewrite He
       | He : is_Queue_Empty _ = true |- _ => rewrite (visible_Empty _ He)
       | He : is_Queue_Empty _ = false |- _ => rewrite (visible_not_Empty _ He)
       end.
  all: try done.
  all: try (rewrite <- Hself; done).
  all: try match goal with
       | H0 : enqueue 0 ?ts = (_, Some ?e) |- _ ∨ _ =>
           left; split; [left|done];
           pose proof (enqueue_error 0 ts e) as He;
           rewrite H0 in He; specialize (He eq_refl); subst e; by rewrite H0
       | H1 : shape_bad _ = true |- _ ∨ _ =>
           left; split; [right|done]; rewrite Hself in *; done
       end.
  all: try (by eexists; split; [reflexivity|]).
  all: try (by right).
  all: try (by rewrite joins_upto_S).
  all: try (by apply Nat.ltb_lt).
  all: try (f_equal;
            match goal with H : (_ <? _) = false |- _ => apply Nat.ltb_ge in H end;
            lia).
  intros ->. exfalso.
  destruct Hpool as [[Hc _]|[_ (_ & _ & P3 & _)]]; [congruence|].
  pose proof (running_length_pos _ _ _ H) as Hpos.
  simpl in Hpos. specialize (Hpos ltac:(done)).
  match goal with Hu : None = None → _ |- _ => destruct (Hu eq_refl) end. lia.
Qed.

(** ** Pairing by [izip_longest] *)

Lemma izip_longest_go_length n fs az ks :
  length (izip_longest_go n fs az ks) = n.
Proof. revert fs az ks. induction n; intros; simpl; auto. Qed.

Lemma izip_longest_go_lookup n fs az ks i :
  i < n →
  izip_longest_go n fs az ks !! i
  = Some (nth i fs FuncFill, nth i az ArgsFill, nth i ks []).
Proof.
  revert fs az ks i. induction n as [|n IH]; intros fs az ks i Hi; [lia|].
  destruct i as [|i]; simpl.
  - by destruct fs, az, ks.
  - rewrite IH by lia. by destruct fs, az, ks; simpl; destruct i.
Qed.

Lemma izip_longest_length fs az ks :
  length (izip_longest fs az ks)
  = length fs `max` (length az `max` length ks).
Proof. apply izip_longest_go_length. Qed.

Lemma izip_longest_lookup fs az ks i :
  i < length fs `max` (length az `max` length ks) →
  izip_longest fs az ks !! i
  = Some (nth i fs FuncFill, nth i az ArgsFill, nth i ks []).
Proof. apply izip_longest_go_lookup. Qed.

Lemma shape_bad_fill a :
  shape_bad a = true →
  ∃ x k, (FuncFill, x, k) ∈ izip_longest (funcs a) (args_list a) (kwargs_list a).
Proof.
  unfold shape_bad. intros H.
  assert (length (funcs a)
          < length (funcs a) `max`
              (length (args_list a) `max` length (kwargs_list a))) as Hlt.
  { apply orb_true_iff in H as [H|H]; apply Nat.ltb_lt in H; lia. }
  pose proof (izip_longest_lookup _ _ _ _ Hlt) as Hl.
  rewrite (nth_overflow (funcs a)) in Hl by lia.
  do 2 eexists. eapply list_elem_of_lookup_2, Hl.
Qed.

(** ** Threads started *)

Lemma threads_inv_reachable p st : reachable p st → threads_inv p st.
Proof.
  revert st. apply reachable_ind; [done|].
  intros st st' Hr IH Hstep.
  pose proof (self_const _ _ Hr) as Hself.
  pose proof (caller_inv_reachable _ _ Hr) as Hci.
  step_cases Hstep; unfold threads_inv in IH |- *; simpl.
  all: try match goal with H : caller _ = _ |- _ => rewrite H in IH end.
  all: try match goal with
       | H : caller _ = MStart 0 |- _ =>
           unfold caller_inv in Hci; rewrite H in Hci;
           destruct Hci as (_ & _ & ->)
       end.
  all: try match goal with
       | H : enqueue _ _ = _ |- _ =>
           rewrite (enqueue_self p _ Hself) in H; try rewrite H
       end.
  all: try rewrite length_app.
  all: rewrite ?Hself in *; simpl in *; try done; try lia.
  all: try (destruct (enqueue 0 (tasks_of p)).2; done).
  all: try (rewrite IH; simpl; lia).
  all: try match goal with
       | |- context [caller ?s] => destruct (caller s)
       end.
  all: try destruct (enqueue 0 (tasks_of p)).2.
  all: rewrite ?length_insert; try done.
  all: try match goal with
       | H : threads _ !! _ = Some _ |- _ => by rewrite IH in H
       end.
Qed.

(** ** The shared flag *)

Lemma keep_running_override p st :
  reachable p st →
  run_over_exceptions (init_attrs p) = true → keep_running st = true.
Proof.
  intros Hr Hroe. revert st Hr. apply reachable_ind; [done|].
  intros st st' Hr IH Hstep.
  pose proof (self_const _ _ Hr) as Hself.
  step_cases Hstep; simpl; rewrite ?Hself; done.
Qed.

Lemma keep_running_stays_false st st' :
  run_over_exceptions (self st) = false →
  keep_running st = false → step st st' → keep_running st' = false.
Proof. intros Hroe Hk Hstep. step_cases Hstep; simpl; done. Qed.

Lemma no_exit_before_drained p st :
  reachable p st →
  keep_running st = true → queue st ≠ [] →
  Forall (λ w, w ≠ WExit) (threads st).
Proof.
  intros Hr. revert st Hr.
  apply (reachable_ind p (λ st, keep_running st = true → queue st ≠ [] →
                                 Forall (λ w, w ≠ WExit) (threads st)));
    [by constructor|].
  intros st st' Hr IH Hstep Hk Hq.
  pose proof (self_const _ _ Hr) as Hself.
  pose proof (threads_inv_reachable _ _ Hr) as Hth.
  assert (run_over_exceptions (self st) = true → keep_running st = true) as Hov.
  { rewrite Hself. by apply keep_running_override. }
  step_cases Hstep; simpl in *.
  all: try match goal with H : caller _ = _ |- _ =>
         unfold threads_inv in Hth; rewrite H in Hth end.
  all: try (apply Forall_insert; [|done]).
  all: try (apply Forall_app; split; [|by repeat constructor]).
  all: try (by rewrite Hth; constructor).
  all: try (apply IH; by auto).
  all: try (apply IH; [by auto|]; by match goal with
            | H : queue _ = _ |- _ => rewrite H end).
  congruence.
Qed.

(** ** Runs *)

Lemma run_steps acts st st' : run acts st = Some st' → rtc step st st'.
Proof.
  revert st. induction acts as [|a acts IH]; intros st; simpl.
  { intros [= ->]. apply rtc_refl. }
  destruct (act a st) as [st1|] eqn:Ha; [|done].
  intros H. eapply rtc_l; [by exists a|]. by apply IH.
Qed.

Lemma run_reachable p acts st : run acts (__init__ p) = Some st → reachable p st.
Proof. apply run_steps. Qed.

(** ** The double gate of the override *)

(** C3: the run-over-exceptions setting the pool works with is on if and
    only if both constructor flags are true; it is the value every failing
    worker writes to the shared flag; and with at most one flag set the pool
    is the very pool built with both flags off. *)
Theorem double_gate p :
  (run_over_exceptions (init_attrs p) = true
   ↔ p_run_over_exceptions p = true ∧ p_i_know_what_im_doing p = true)
  ∧ (∀ st i t e st',
       reachable p st → threads st !! i = Some (WExcSet t e) →
       _wrapped i st = Some st' →
       keep_running st'
       = p_run_over_exceptions p && p_i_know_what_im_doing p)
  ∧ (p_run_over_exceptions p && p_i_know_what_im_doing p = false →
     __init__ p = __init__ (fail_fast_params p)
     ∧ ∀ st, reachable p st ↔ reachable (fail_fast_params p) st).
Proof.
  split_and!.
  - simpl. apply andb_true_iff.
  - intros st i t e st' Hr Hi Hs. unfold _wrapped in Hs. rewrite Hi in Hs.
    simplify_eq. simpl. by rewrite (self_const _ _ Hr).
  - intros Hoff.
    assert (__init__ p = __init__ (fail_fast_params p)) as Heq.
    { unfold __init__, init_attrs. simpl. by rewrite Hoff. }
    split; [done|]. intros st. unfold Sem.reachable. by rewrite Heq.
Qed.

(** ** Enqueueing *)

Lemma tasks_no_basestring fs az ks :
  Forall (λ a, is_basestring a = false) az →
  Forall (λ t : task, is_basestring t.1.2 = false) (izip_longest fs az ks).
Proof.
  intros Haz. apply Forall_lookup. intros i t Hi.
  pose proof (lookup_lt_Some _ _ _ Hi) as Hlt.
  rewrite izip_longest_length in Hlt.
  rewrite izip_longest_lookup in Hi by done. simplify_eq. simpl.
  destruct (az !! i) as [a|] eqn:Ha.
  - rewrite (nth_lookup_Some _ _ _ _ Ha).
    exact (Forall_lookup_1 _ _ _ _ Haz Ha).
  - by rewrite nth_overflow by (by apply lookup_ge_None).
Qed.

Lemma tasks_some_basestring fs az ks :
  Exists (λ a, is_basestring a = true) az →
  Exists (λ t : task, is_basestring t.1.2 = true) (izip_longest fs az ks).
Proof.
  intros (a & Hin & Ha)%Exists_exists.
  apply list_elem_of_lookup in Hin as [i Hi].
  pose proof (lookup_lt_Some _ _ _ Hi) as Hlt.
  apply Exists_exists. eexists. split.
  - apply (list_elem_of_lookup_2 _ i), izip_longest_lookup. lia.
  - simpl. by rewrite (nth_lookup_Some _ _ _ _ Hi).
Qed.

(** C8, amended: when no entry of [args_list] is a bare string, the three
    lists are paired by position up to the length of the longest, a missing
    entry is the fill value, every padded triple is put on the queue in
    order, and a task whose arguments (keyword arguments) are the fill value
    is called with no positional (no keyword) arguments. *)
Theorem padded_triples_enqueued p t1 t2 t3 :
  Forall (λ a, is_basestring a = false) (args_list (init_attrs p)) →
  let fs := funcs (init_attrs p) in
  let az := args_list (init_attrs p) in
  let ks := kwargs_list (init_attrs p) in
  let n := length fs `max` (length az `max` length ks) in
  length (tasks_of p) = n
  ∧ (∀ i, i < n →
       tasks_of p !! i = Some (nth i fs FuncFill, nth i az ArgsFill, nth i ks []))
  ∧ (∃ st', run_threads t1 t2 t3 (__init__ p) = Some st'
            ∧ queue st' = zip (seq 0 n) (tasks_of p)
            ∧ unfinished_tasks st' = n)
  ∧ (∀ m f body k, run_task (PyFunction m f body, ArgsFill, k) = body [] k)
  ∧ (∀ m f body a, run_task (PyFunction m f body, a, []) = body (star_args a) []).
Proof.
  intros Hno fs az ks n.
  assert (length (tasks_of p) = n) as Hlen by apply izip_longest_length.
  split_and!; try done.
  - intros i Hi. by apply izip_longest_lookup.
  - unfold Sem.run_threads. simpl.
    change (izip_longest _ _ _) with (tasks_of p).
    rewrite (enqueue_all 0 (tasks_of p)) by by apply tasks_no_basestring.
    eexists. split; [done|]. simpl. rewrite Hlen. split; [done|].
    rewrite length_zip_with, length_seq. lia.
Qed.

(** C4: when some entry of [args_list] is a bare string, [run_threads]
    raises the argument-shape [ValueError] out of the enqueueing loop: two
    statements of the caller end the call with that error, and in no state
    of the run has a thread been started or a task begun. *)
Theorem bare_string_rejected p t1 t2 t3 :
  Exists (λ a, is_basestring a = true) (args_list (init_attrs p)) →
  (∃ st, run [ActCaller t1 t2 t3; ActCaller t1 t2 t3] (__init__ p) = Some st
         ∧ run_result st = Some (Raised args_shape_error))
  ∧ ∀ st, reachable p st →
      threads st = [] ∧ attempted st = [] ∧ exceptions st = []
      ∧ (caller st = MEnqueue
         ∨ caller st = MFinally (Some args_shape_error)
         ∨ caller st = MDone (Some args_shape_error) None)
      ∧ ∀ r, run_result st = Some r → r = Raised args_shape_error.
Proof.
  intros Hex.
  assert ((enqueue 0 (tasks_of p)).2 = Some args_shape_error) as Herr.
  { by apply enqueue_stops, tasks_some_basestring. }
  split.
  - simpl. unfold Sem.run_threads at 1. simpl.
    change (izip_longest _ _ _) with (tasks_of p).
    destruct (enqueue 0 (tasks_of p)) as [q err]. simpl in Herr. subst err.
    eexists. split; [done|]. done.
  - apply reachable_ind.
    { split_and!; try done; by left. }
    intros st st' Hr (Hth & Hat & Hex' & Hc & _) Hstep.
    pose proof (self_const _ _ Hr) as Hself.
    step_cases Hstep; simpl; try (by rewrite Hth in *).
    all: try match goal with
         | H : enqueue _ _ = _ |- _ =>
             rewrite (enqueue_self p _ Hself) in H; rewrite H in Herr;
             simpl in Herr; simplify_eq
         end.
    all: try (by destruct Hc as [?|[?|?]]; simplify_eq).
    all: destruct Hc as [?|[?|?]]; simplify_eq.
    all: split_and!; try done; auto.
    all: unfold run_result; simpl; by intros ? [= <-].
Qed.

(** ** Progress reports *)

Lemma tasks_inv_past_enqueue p st :
  reachable p st → caller st ≠ MEnqueue → tasks_inv p st.
Proof.
  intros Hr Hc. by destruct (pool_inv_reachable _ _ Hr) as [[? _]|[_ ?]].
Qed.

Lemma enqueued_all p :
  (enqueue 0 (tasks_of p)).2 = None →
  enqueued p = zip (seq 0 (length (tasks_of p))) (tasks_of p).
Proof.
  unfold enqueued. generalize 0. generalize (tasks_of p).
  induction l as [|[[f a] k] l IH]; intros i; simpl; [done|].
  destruct (is_basestring a); [done|].
  specialize (IH (S i)). destruct (enqueue (S i) l) as [q err]; simpl in *.
  intros ->. by rewrite IH.
Qed.

Lemma enqueued_length p :
  (enqueue 0 (tasks_of p)).2 = None →
  length (enqueued p) = length (tasks_of p).
Proof.
  intros H. rewrite (enqueued_all p H), length_zip_with, length_seq. lia.
Qed.

Lemma shape_ok_length p :
  shape_bad (init_attrs p) = false →
  length (tasks_of p) = length (funcs (init_attrs p)).
Proof.
  unfold shape_bad, tasks_of. rewrite izip_longest_length.
  intros [H1 H2]%orb_false_iff.
  apply Nat.ltb_ge in H1. apply Nat.ltb_ge in H2. lia.
Qed.

(** C9: an iteration of the supervisor loop that finds no failure on the
    channel goes on to the progress step. There, when an interval is
    configured and the time since the last report, which line 135 computes
    as the difference of two clock readings in floating point, exceeds it,
    one message is logged and the time of the last report is reset. The
    message reads [After E Q functions pending execution of T total], where
    [E] is the rendering of the elapsed time since the start, [Q] the size
    of the queue in decimal and [T] the number of callables in decimal.
    The number of callables is the number of tasks enqueued, and the size of
    the queue counts the tasks no worker has pulled. When no interval is
    configured, or the difference does not exceed it, nothing is logged and
    the time of the last report stays. *)
Theorem progress_report p st start last :
  reachable p st →
  (caller st = MPoll start last → exceptions st = [] →
   ∀ t1 t2 t3,
     run_threads t1 t2 t3 st = Some (set_caller (MProgress start last) st))
  ∧ (caller st = MProgress start last →
     ∀ interval t1 t2 t3,
       output_interval (self st) = Some interval →
       (interval <? t1 - last)%float = true →
       run_threads t1 t2 t3 st
       = Some (set_caller (MSleep start t3)
                 (add_log
                    (LogInfo
                       ("After " ++ hrts (t2 - start)%float ++ " "
                        ++ NilEmpty.string_of_uint
                             (Nat.to_uint (length (queue st)))
                        ++ " functions pending execution of "
                        ++ NilEmpty.string_of_uint
                             (Nat.to_uint (length (funcs (self st))))
                        ++ " total")%string) st))
       ∧ length (funcs (self st)) = length (enqueued p)
       ∧ length (enqueued p)
         = length (queue st) + length (pulled (threads st))
           + length (attempted st))
  ∧ (caller st = MProgress start last →
     ∀ t1 t2 t3,
       (output_interval (self st) = None
        ∨ ∃ interval, output_interval (self st) = Some interval
                      ∧ (interval <? t1 - last)%float = false) →
       run_threads t1 t2 t3 st = Some (set_caller (MSleep start last) st)).
Proof.
  intros Hr. split_and!.
  - intros Hc He t1 t2 t3. unfold Sem.run_threads. by rewrite Hc, He.
  - intros Hc interval t1 t2 t3 Hi Hlt. split_and!.
    + unfold Sem.run_threads. rewrite Hc, Hi, Hlt. reflexivity.
    + pose proof (caller_inv_reachable _ _ Hr) as Hci.
      unfold caller_inv in Hci. rewrite Hc in Hci.
      destruct Hci as [(_ & He & Hs) _].
      rewrite (self_const _ _ Hr), (enqueued_length p He).
      by rewrite shape_ok_length.
    + destruct (tasks_inv_past_enqueue p st Hr) as (P1 & _); [congruence|].
      apply Permutation_length in P1.
      rewrite length_seq, !length_app, length_fmap in P1. lia.
  - intros Hc t1 t2 t3 [Hi|(interval & Hi & Hle)].
    + unfold Sem.run_threads. by rewrite Hc, Hi.
    + unfold Sem.run_threads. by rewrite Hc, Hi, Hle.
Qed.

(** ** No callable at all *)

Lemma empty_pool_inv p :
  p_funcs p = [] → p_args_list p = None → p_kwargs_list p = None →
  ∀ st, reachable p st →
    queue st = [] ∧ unfinished_tasks st = 0 ∧ keep_running st = true
    ∧ attempted st = [] ∧ exceptions st = []
    ∧ Forall idle (threads st) ∧ outside_loop (caller st).
Proof.
  intros Hf Ha Hk.
  assert (tasks_of p = []) as Hts.
  { unfold tasks_of, init_attrs. simpl. by rewrite Hf, Ha, Hk. }
  apply reachable_ind.
  { by split_and!. }
  intros st st' Hr (Hq & Hu & Hkr & Hat & Hex & Hw & Hc) Hstep.
  pose proof (self_const _ _ Hr) as Hself.
  step_cases Hstep; simpl in *.
  all: try match goal with
       | H : enqueue _ _ = _ |- _ =>
           rewrite (enqueue_self p _ Hself), Hts in H; simpl in H; simplify_eq
       end.
  all: try match goal with
       | Hi : threads _ !! _ = Some _ |- _ =>
           pose proof (Forall_lookup_1 _ _ _ _ Hw Hi) as [?|[?|?]];
           simplify_eq
       end.
  all: try match goal with H : caller _ = _ |- _ => rewrite H in Hc end.
  all: try done.
  all: split_and!; try done; try congruence.
  all: try (apply Forall_insert; [done|]; unfold idle; by auto).
  all: try (apply Forall_app; split; [done|]; repeat constructor;
            unfold idle; by auto).
  all: try (rewrite Hq; simpl; lia).
  - by rewrite Hq.
  - rewrite Hu. simpl. lia.
  - match goal with H : shape_bad _ = true |- _ =>
      rewrite Hself in H; unfold shape_bad, init_attrs in H; simpl in H;
      rewrite Hf, Ha, Hk in H; simpl in H
    end. done.
Qed.

Lemma empty_pool_returns p t1 t2 t3 :
  p_funcs p = [] → p_args_list p = None → p_kwargs_list p = None →
  ∀ n st, reachable p st →
    statements_left (Z.to_nat (max_workers (init_attrs p))) (caller st) = n →
    ∃ st', run (replicate n (ActCaller t1 t2 t3)) st = Some st'
           ∧ caller st' = MDone None None.
Proof.
  intros Hf Ha Hk n. induction n as [|n IH]; intros st Hr Hn.
  - destruct (empty_pool_inv p Hf Ha Hk st Hr) as (_ & _ & _ & _ & _ & _ & Hc).
    exists st. split; [done|].
    destruct (caller st) as [| | | | | | |[?|]| | |[?|] [?|]]; simpl in *;
      done || lia.
  - destruct (empty_pool_inv p Hf Ha Hk st Hr)
      as (Hq & Hu & _ & _ & Hex & _ & Hc).
    pose proof (self_const _ _ Hr) as Hself.
    assert (∃ st1, run_threads t1 t2 t3 st = Some st1
                   ∧ statements_left (Z.to_nat (max_workers (init_attrs p)))
                       (caller st1) = n) as (st1 & Hs & Hn1).
    { unfold Sem.run_threads.
      destruct (caller st) as [|[|k]| | | | | |[?|]| | |[?|] [?|]] eqn:Hcs;
        simpl in *; try done; try lia.
      - rewrite (enqueue_self p _ Hself).
        assert (tasks_of p = []) as ->.
        { unfold tasks_of, init_attrs. simpl. by rewrite Hf, Ha, Hk. }
        simpl. eexists. split; [done|]. simpl. rewrite Hself. simpl. lia.
      - assert (shape_bad (self st) = false) as ->.
        { rewrite Hself. unfold shape_bad, init_attrs. simpl.
          by rewrite Hf, Ha, Hk. }
        eexists. split; [done|]. simpl. lia.
      - eexists. split; [done|]. simpl. lia.
      - rewrite Hu. eexists. split; [done|]. simpl. lia.
      - rewrite Hex. eexists. split; [done|]. simpl. lia. }
    destruct (IH st1) as (st' & Hrun & Hd); [|done|].
    { eapply reachable_step; [done|]. by exists (ActCaller t1 t2 t3). }
    exists st'. split; [|done]. simpl. by rewrite Hs.
Qed.

(** C10: with an empty [funcs] and no [args_list] or [kwargs_list], no task
    is ever enqueued or begun; [run_threads] still starts [max_workers]
    threads (none when that is not positive), each of which passes the flag
    test, finds the queue empty and returns; the caller never enters the
    body of the supervisor loop, and from any state of the run its own
    remaining statements end the call with a normal return. *)
Theorem empty_pool p t1 t2 t3 :
  p_funcs p = [] → p_args_list p = None → p_kwargs_list p = None →
  ∀ st, reachable p st →
    (queue st = [] ∧ attempted st = [] ∧ Forall idle (threads st))
    ∧ (∀ i, threads st !! i = Some WLoop →
            _wrapped i st = Some (set_thread i WGet st))
    ∧ (∀ i, threads st !! i = Some WGet →
            _wrapped i st = Some (set_thread i WExit st))
    ∧ outside_loop (caller st)
    ∧ (caller st ≠ MEnqueue → (∀ k, caller st ≠ MStart k) →
       length (threads st) = Z.to_nat (p_max_workers p))
    ∧ ∃ st',
        run (replicate
               (statements_left (Z.to_nat (p_max_workers p)) (caller st))
               (ActCaller t1 t2 t3)) st = Some st'
        ∧ run_result st' = Some Returned
        ∧ length (threads st') = Z.to_nat (p_max_workers p).
Proof.
  intros Hf Ha Hk st Hr.
  destruct (empty_pool_inv p Hf Ha Hk st Hr)
    as (Hq & Hu & Hkr & Hat & Hex & Hw & Hc).
  assert ((enqueue 0 (tasks_of p)).2 = None) as Henq.
  { unfold tasks_of, init_attrs. simpl. by rewrite Hf, Ha, Hk. }
  split_and!; try done.
  - intros i Hi. unfold _wrapped. by rewrite Hi, Hkr.
  - intros i Hi. unfold _wrapped. by rewrite Hi, Hq.
  - intros Hne Hns. pose proof (threads_inv_reachable _ _ Hr) as Hth.
    unfold threads_inv in Hth. rewrite Henq in Hth.
    destruct (caller st) as [|k| | | | | | | | |]; simpl in *; try done.
    by destruct (Hns k).
  - destruct (empty_pool_returns p t1 t2 t3 Hf Ha Hk _ st Hr eq_refl)
      as (st' & Hrun & Hd).
    exists st'. split_and!; [done|unfold run_result; by rewrite Hd|].
    assert (reachable p st') as Hr'.
    { unfold Sem.reachable in *. etrans; [exact Hr|].
      eapply run_steps, Hrun. }
    pose proof (threads_inv_reachable _ _ Hr') as Hth.
    unfold threads_inv in Hth. by rewrite Hd, Henq in Hth.
Qed.

(** ** Every task once *)

Lemma bind_holding ws :
  ws ≫= holding ≡ₚ pulled ws ++ running ws.
Proof.
  unfold pulled, running. induction ws as [|w ws IH]; [done|].
  rewrite !bind_cons, IH. unfold holding. solve_Permutation.
Qed.

Lemma bind_NoDup_lookup {A B} (f : A → list B) ws i j wi wj k :
  NoDup (ws ≫= f) → ws !! i = Some wi → ws !! j = Some wj →
  k ∈ f wi → k ∈ f wj → i = j.
Proof.
  revert i j. induction ws as [|w ws IH]; intros i j Hnd Hi Hj Hki Hkj; [done|].
  rewrite bind_cons in Hnd. apply NoDup_app in Hnd as (_ & Hdis & Hnd).
  destruct i as [|i], j as [|j]; simpl in *; simplify_eq; [done|..].
  - exfalso. apply (Hdis k Hki). apply list_elem_of_bind. exists wj.
    split; [done|]. by eapply list_elem_of_lookup_2.
  - exfalso. apply (Hdis k Hkj). apply list_elem_of_bind. exists wi.
    split; [done|]. by eapply list_elem_of_lookup_2.
  - f_equal. by apply IH.
Qed.

Lemma tasks_once p st :
  reachable p st →
  NoDup ((queue st).*1 ++ pulled (threads st) ++ attempted st)
  ∧ NoDup (threads st ≫= holding)
  ∧ NoDup (running (threads st) ++ completed st).
Proof.
  intros Hr. destruct (pool_inv_reachable _ _ Hr) as [[_ ->]|[_ Hinv]].
  { simpl. split_and!; constructor. }
  destruct Hinv as (P1 & P2 & _).
  assert (NoDup ((queue st).*1 ++ pulled (threads st) ++ attempted st)) as Hnd.
  { rewrite <- P1. apply NoDup_seq. }
  split; [done|].
  apply NoDup_app in Hnd as (_ & _ & Hnd). rewrite P2 in Hnd. split.
  - rewrite bind_holding. rewrite app_assoc in Hnd.
    by apply NoDup_app in Hnd as (? & _ & _).
  - by apply NoDup_app in Hnd as (_ & _ & ?).
Qed.

Lemma enqueued_task p j t : (j, t) ∈ enqueued p → t ∈ tasks_of p.
Proof.
  intros [_ H]%enqueue_lookup. by eapply list_elem_of_lookup_2.
Qed.

Lemma no_failure_recorded p st :
  Forall (λ t, run_task t = Returns) (tasks_of p) →
  reachable p st →
  recorded st = [] ∧ observed st = [] ∧ exceptions st = [].
Proof.
  intros Hok Hr. destruct (pool_inv_reachable _ _ Hr) as [[_ ->]|[_ Hinv]].
  { done. }
  destruct Hinv as (_ & _ & _ & _ & _ & _ & P7 & P8).
  assert (recorded st = []) as Hrec.
  { destruct (recorded st) as [|[j e] l]; [done|].
    destruct (P7 j e) as (_ & t & Ht & Hrun & _); [by left|].
    apply enqueued_task in Ht.
    rewrite Forall_forall in Hok. rewrite (Hok t Ht) in Hrun. done. }
  rewrite Hrec in P8. symmetry in P8. by apply app_eq_nil in P8 as [? ?].
Qed.

Lemma no_failure_shape p :
  Forall (λ t, run_task t = Returns) (tasks_of p) →
  shape_bad (init_attrs p) = false.
Proof.
  intros Hok. destruct (shape_bad (init_attrs p)) eqn:Hs; [|done].
  apply shape_bad_fill in Hs as (x & k & Hin).
  rewrite Forall_forall in Hok. by specialize (Hok _ Hin).
Qed.

(** A run to completion: the caller starts the threads, one worker takes
    the tasks one after the other, the caller leaves the loop. *)

Lemma start_threads k :
  ∀ st, caller st = MStart k →
    ∃ st', rtc step st st' ∧ caller st' = MStart 0
           ∧ threads st' = threads st ++ replicate k WLoop
           ∧ queue st' = queue st
           ∧ unfinished_tasks st' = unfinished_tasks st
           ∧ keep_running st' = keep_running st
           ∧ exceptions st' = exceptions st
           ∧ self st' = self st.
Proof.
  induction k as [|k IH]; intros st Hc.
  { exists st. rewrite app_nil_r. by split_and!. }
  destruct (IH (set_caller (MStart k) (set_threads (threads st ++ [WLoop]) st)))
    as (st' & Hs & Hc' & Hth & Hq & Hu & Hk & He & Ha); [done|].
  exists st'. split_and!; try done.
  - eapply rtc_l; [|exact Hs]. exists (ActCaller 0 0 0). simpl.
    unfold Sem.run_threads. by rewrite Hc.
  - rewrite Hth. simpl. by rewrite <- app_assoc.
Qed.

Lemma worker_drains i u q :
  ∀ st, queue st = q →
    Forall (λ t : nat * task, run_task t.2 = Returns) q →
    threads st !! i = Some WLoop → keep_running st = true →
    unfinished_tasks st = length q + u →
    ∃ st', rtc step st st' ∧ caller st' = caller st ∧ queue st' = []
           ∧ unfinished_tasks st' = u ∧ exceptions st' = exceptions st
           ∧ self st' = self st.
Proof.
  induction q as [|t q IH]; intros st Hq Hok Hi Hk Hu.
  { exists st. by split_and!. }
  apply Forall_cons in Hok as [Ht Hok].
  pose proof (lookup_lt_Some _ _ _ Hi) as Hlt.
  set (s1 := set_thread i WGet st).
  set (s2 := set_thread i (WGot t) (set_queue q s1)).
  set (s3 := set_thread i (WCall t)
               (add_attempted t.1 (add_log (LogDebug i t.2) s2))).
  set (s4 := set_thread i (WTaskDone t) s3).
  set (s5 := set_thread i WLoop
               (add_completed t.1 (set_unfinished_tasks (length q + u) s4))).
  assert (_wrapped i st = Some s1) as H1.
  { unfold _wrapped. by rewrite Hi, Hk. }
  assert (_wrapped i s1 = Some s2) as H2.
  { unfold _wrapped, s1. simpl.
    rewrite list_lookup_insert_eq by done. by rewrite Hq. }
  assert (_wrapped i s2 = Some s3) as H3.
  { unfold _wrapped, s2, s1. simpl.
    by rewrite list_lookup_insert_eq by (by rewrite length_insert). }
  assert (_wrapped i s3 = Some s4) as H4.
  { unfold _wrapped, s3, s2, s1. simpl.
    rewrite list_lookup_insert_eq by (by rewrite !length_insert).
    by rewrite Ht. }
  assert (_wrapped i s4 = Some s5) as H5.
  { unfold _wrapped, s4, s3, s2, s1. simpl.
    rewrite list_lookup_insert_eq by (by rewrite !length_insert).
    by rewrite Hu. }
  destruct (IH s5) as (st' & Hs & Hc' & Hq' & Hu' & He' & Ha'); try done.
  { unfold s5, s4, s3, s2, s1. simpl.
    by rewrite list_lookup_insert_eq by (by rewrite !length_insert). }
  exists st'. split_and!; try done.
  eapply rtc_l; [by exists (ActWorker i)|].
  eapply rtc_l; [by exists (ActWorker i)|].
  eapply rtc_l; [by exists (ActWorker i)|].
  eapply rtc_l; [by exists (ActWorker i)|].
  eapply rtc_l; [by exists (ActWorker i)|]. done.
Qed.

Lemma completes p :
  (enqueue 0 (tasks_of p)).2 = None →
  Forall (λ t, run_task t = Returns) (tasks_of p) →
  0 < Z.to_nat (max_workers (init_attrs p)) →
  ∃ st, reachable p st ∧ caller st = MDone None None.
Proof.
  intros Henq Hok Hw.
  pose proof (no_failure_shape p Hok) as Hshape.
  set (st1 := set_caller (MStart (Z.to_nat (max_workers (init_attrs p))))
                (set_unfinished_tasks (length (enqueued p))
                   (set_queue (enqueued p) (__init__ p)))).
  assert (step (__init__ p) st1) as Hs1.
  { exists (ActCaller 0 0 0). simpl. unfold Sem.run_threads. simpl.
    change (izip_longest _ _ _) with (tasks_of p). unfold st1, enqueued.
    destruct (enqueue 0 (tasks_of p)) as [q err]. simpl in *. by subst err. }
  destruct (start_threads _ st1 eq_refl)
    as (st2 & Hs2 & Hc2 & Hth2 & Hq2 & Hu2 & Hk2 & He2 & Ha2).
  set (st3 := set_caller (MLoop 0 0) st2).
  assert (step st2 st3) as Hs3.
  { exists (ActCaller 0 0 0). simpl. unfold Sem.run_threads.
    rewrite Hc2, Ha2. simpl. by rewrite Hshape. }
  destruct (worker_drains 0 0 (enqueued p) st3)
    as (st4 & Hs4 & Hc4 & Hq4 & Hu4 & He4 & Ha4); try done.
  { apply Forall_forall. intros [j t] Hin. simpl.
    rewrite Forall_forall in Hok. eapply Hok, enqueued_task, Hin. }
  { simpl in Hw |- *. rewrite Hth2. simpl.
    destruct (Z.to_nat (p_max_workers p)); [lia|done]. }
  { simpl. rewrite Hu2. simpl. lia. }
  exists (set_caller (MDone None None) (set_caller (MFinally None) st4)).
  split; [|done].
  eapply rtc_l; [exact Hs1|]. etrans; [exact Hs2|].
  eapply rtc_l; [exact Hs3|]. etrans; [exact Hs4|].
  eapply rtc_l.
  { exists (ActCaller 0 0 0). simpl. unfold Sem.run_threads.
    by rewrite Hc4, Hu4. }
  eapply rtc_l; [|apply rtc_refl].
  exists (ActCaller 0 0 0). simpl. unfold Sem.run_threads. simpl.
  rewrite He4. unfold st3. simpl. by rewrite He2.
Qed.

Lemma drained p st :
  reachable p st → caller st ≠ MEnqueue → unfinished_tasks st = 0 →
  queue st = [] ∧ pulled (threads st) = [] ∧ running (threads st) = []
  ∧ attempted st ≡ₚ seq 0 (length (enqueued p))
  ∧ completed st ≡ₚ seq 0 (length (enqueued p)).
Proof.
  intros Hr Hc Hu.
  destruct (tasks_inv_past_enqueue p st Hr Hc) as (P1 & P2 & P3 & _).
  assert (queue st = []) as Hq by (apply nil_length_inv; lia).
  assert (pulled (threads st) = []) as Hp by (apply nil_length_inv; lia).
  assert (running (threads st) = []) as Hrun by (apply nil_length_inv; lia).
  rewrite Hq, Hp in P1. rewrite Hrun in P2. simpl in *.
  split_and!; try done. by rewrite <- P2.
Qed.

Lemma no_failure_result p st pend found :
  (enqueue 0 (tasks_of p)).2 = None →
  Forall (λ t, run_task t = Returns) (tasks_of p) →
  reachable p st → caller st = MDone pend found →
  pend = None ∧ found = None ∧ unfinished_tasks st = 0.
Proof.
  intros Henq Hok Hr Hc.
  destruct (no_failure_recorded p st Hok Hr) as (_ & Hobs & _).
  pose proof (no_failure_shape p Hok) as Hshape.
  pose proof (caller_inv_reachable _ _ Hr) as Hci.
  unfold caller_inv in Hci. rewrite Hc, Hobs in Hci.
  destruct found as [e|].
  { destruct Hci as [(obs & Heq & _) _]. by destruct obs. }
  destruct Hci as (Hp & _ & Hu). destruct pend as [e|].
  - exfalso.
    destruct Hp as [[[[_ ?]|(_ & _ & ?)] _]|[Hv _]]; [congruence..|].
    by vm_compute in Hv.
  - by destruct (Hu eq_refl).
Qed.

(** C2: for an input with no bare string whose tasks all return, and any
    number of workers: a position is never at once on the queue, pulled and
    attempted, nor attempted twice; no two workers hold the same task; a
    task is marked complete only after it was attempted and its worker let
    go of it; the pending count is the number of tasks not yet marked
    complete, and is zero only when every position was attempted, and
    completed, exactly once; [run_threads] ends only by returning, with
    every task attempted once; and with at least one worker there is a run
    that ends so. *)
Theorem exactly_once p :
  Forall (λ a, is_basestring a = false) (args_list (init_attrs p)) →
  Forall (λ t, run_task t = Returns) (tasks_of p) →
  let n := length (tasks_of p) in
  (∀ st, reachable p st →
     NoDup ((queue st).*1 ++ pulled (threads st) ++ attempted st)
     ∧ (∀ i j wi wj k,
          threads st !! i = Some wi → threads st !! j = Some wj →
          k ∈ holding wi → k ∈ holding wj → i = j)
     ∧ (∀ k, k ∈ completed st →
             k ∈ attempted st ∧ k ∉ running (threads st))
     ∧ (caller st ≠ MEnqueue →
        unfinished_tasks st + length (completed st) = n)
     ∧ (caller st ≠ MEnqueue → unfinished_tasks st = 0 →
        attempted st ≡ₚ seq 0 n ∧ completed st ≡ₚ seq 0 n)
     ∧ (∀ r, run_result st = Some r →
             r = Returned ∧ attempted st ≡ₚ seq 0 n))
  ∧ ((0 < max_workers (init_attrs p))%Z →
     ∃ st, reachable p st ∧ run_result st = Some Returned).
Proof.
  intros Hno Hok n.
  assert ((enqueue 0 (tasks_of p)).2 = None) as Henq.
  { unfold tasks_of. by rewrite enqueue_all by by apply tasks_no_basestring. }
  pose proof (enqueued_length p Henq) as Hlen. fold n in Hlen.
  split.
  - intros st Hr. destruct (tasks_once p st Hr) as (Hnd1 & Hnd2 & Hnd3).
    split_and!; try done.
    + intros i j wi wj k. by apply bind_NoDup_lookup.
    + intros k Hk. apply NoDup_app in Hnd3 as (_ & Hdis & _).
      destruct (pool_inv_reachable _ _ Hr) as [[_ ->]|[_ (_ & P2 & _)]].
      { by apply elem_of_nil in Hk. }
      split; [rewrite P2; set_solver|]. intros Hin. by apply (Hdis k).
    + intros Hc.
      destruct (tasks_inv_past_enqueue p st Hr Hc) as (P1 & P2 & P3 & _).
      apply Permutation_length in P1, P2.
      rewrite length_seq, !length_app, length_fmap in P1.
      rewrite length_app in P2. lia.
    + intros Hc Hu. rewrite <- Hlen.
      by destruct (drained p st Hr Hc Hu) as (_ & _ & _ & ? & ?).
    + intros r Hres. unfold run_result in Hres.
      destruct (caller st) as [| | | | | | | | | |pend found] eqn:Hc; try done.
      destruct (no_failure_result p st pend found Henq Hok Hr Hc)
        as (-> & -> & Hu).
      simplify_eq. split; [done|]. rewrite <- Hlen.
      destruct (drained p st Hr) as (_ & _ & _ & ? & _); congruence.
  - intros Hw. destruct (completes p Henq Hok) as (st & Hr & Hc); [lia|].
    exists st. split; [done|]. unfold run_result. by rewrite Hc.
Qed.

(** ** Override mode *)

Lemma exited_drained p st :
  reachable p st → keep_running st = true → WExit ∈ threads st →
  queue st = [].
Proof.
  intros Hr Hk Hin. destruct (queue st) as [|t q] eqn:Hq; [done|].
  exfalso. assert (queue st ≠ []) as Hne by congruence.
  pose proof (no_exit_before_drained p st Hr Hk Hne) as Hall.
  rewrite Forall_forall in Hall. by apply (Hall WExit).
Qed.


(** ** Fail-fast mode *)

Lemma recorded_flag_down p st :
  run_over_exceptions (init_attrs p) = false →
  reachable p st →
  keep_running st = true →
  recorded st = []
  ∧ Forall (λ w, match w with
                 | WExcLog _ _ | WExcPut _ _ => False
                 | _ => True
                 end) (threads st).
Proof.
  intros Hff Hr. revert st Hr.
  apply (reachable_ind p (λ st, keep_running st = true →
    recorded st = []
    ∧ Forall (λ w, match w with
                   | WExcLog _ _ | WExcPut _ _ => False
                   | _ => True
                   end) (threads st))).
  { by split. }
  intros st st' Hr IH Hstep Hk.
  pose proof (self_const _ _ Hr) as Hself.
  step_cases Hstep; simpl in *; try rewrite Hself in Hk; simpl in Hk;
    try congruence.
  all: destruct IH as [IH1 IH2]; [done|].
  all: try match goal with
       | Hi : threads _ !! _ = Some _ |- _ =>
           by pose proof (Forall_lookup_1 _ _ _ _ IH2 Hi)
       end.
  all: split; [done|].
  all: try done.
  all: try (apply Forall_insert; done).
  all: try (apply Forall_app; split; [done|]; by repeat constructor).
Qed.

Lemma visible_all l :
  Forall (λ e, is_Queue_Empty e = false) l → visible l = l.
Proof.
  induction 1 as [|e l He _ IH]; [done|].
  unfold visible in *. by rewrite filter_cons_True, IH.
Qed.

Lemma recorded_task p st j e :
  reachable p st → (j, e) ∈ recorded st →
  ∃ t, (j, t) ∈ enqueued p ∧ run_task t = Raises e.
Proof.
  intros Hr Hin. destruct (pool_inv_reachable _ _ Hr)
    as [[_ ->]|[_ (_ & _ & _ & _ & _ & _ & P7 & _)]].
  { by apply elem_of_nil in Hin. }
  destruct (P7 j e Hin) as (_ & t & ? & ? & _). eauto.
Qed.

Lemma observed_recorded p st :
  reachable p st → observed st `prefix_of` (recorded st).*2.
Proof.
  intros Hr. destruct (pool_inv_reachable _ _ Hr)
    as [[_ ->]|[_ (_ & _ & _ & _ & _ & _ & _ & P8)]]; [done|].
  rewrite P8. by apply prefix_app_r.
Qed.

Lemma observed_task p st e :
  reachable p st → e ∈ observed st →
  ∃ j t, (j, t) ∈ enqueued p ∧ run_task t = Raises e.
Proof.
  intros Hr Hin. destruct (observed_recorded p st Hr) as [k Hk].
  assert (e ∈ (recorded st).*2) as Hrec by (rewrite Hk; set_solver).
  apply list_elem_of_fmap in Hrec as ([j e'] & -> & Hrec).
  destruct (recorded_task p st j e' Hr Hrec) as (t & ? & ?). eauto.
Qed.

Lemma observed_visible p st :
  Forall (λ t, ∀ e, run_task t = Raises e → is_Queue_Empty e = false)
    (tasks_of p) →
  reachable p st → Forall (λ e, is_Queue_Empty e = false) (observed st).
Proof.
  intros Hne Hr. apply Forall_forall. intros e He.
  destruct (observed_task p st e Hr He) as (j & t & Ht & Hrun).
  rewrite Forall_forall in Hne. eapply Hne; [|done]. by eapply enqueued_task.
Qed.

Lemma returned_all_return p st :
  (enqueue 0 (tasks_of p)).2 = None →
  reachable p st → caller st ≠ MEnqueue →
  unfinished_tasks st = 0 → recorded st = [] →
  Forall (λ t, run_task t = Returns) (tasks_of p).
Proof.
  intros Henq Hr Hc Hu Hrec. apply Forall_lookup. intros i t Hi.
  destruct (drained p st Hr Hc Hu) as (_ & _ & _ & _ & Hcomp).
  destruct (tasks_inv_past_enqueue p st Hr Hc)
    as (_ & _ & _ & _ & _ & P6 & _).
  assert ((i, t) ∈ enqueued p) as Hin.
  { rewrite (enqueued_all p Henq). apply (list_elem_of_lookup_2 _ i).
    apply lookup_zip_with_Some. exists i, t. split_and!; [done| |done].
    apply lookup_seq. split; [done|]. by eapply lookup_lt_Some. }
  assert (i ∈ completed st) as Hic.
  { rewrite Hcomp. apply elem_of_seq. rewrite (enqueued_length p Henq).
    split; [lia|]. simpl. by eapply lookup_lt_Some. }
  specialize (P6 (i, t) Hin Hic). simpl in P6.
  destruct (run_task t); [done|]. rewrite Hrec in P6.
  by apply elem_of_nil in P6.
Qed.

(** ** The call can always end *)

Lemma pos_insert ws i w w' :
  ws !! i = Some w →
  sum_list (w_pos <$> <[i:=w']> ws) + w_pos w
  = sum_list (w_pos <$> ws) + w_pos w'.
Proof.
  revert i. induction ws as [|x ws IH]; intros [|i] Hi; simplify_eq/=; [lia|].
  specialize (IH i Hi). lia.
Qed.

Lemma pos_snoc ws : sum_list (w_pos <$> ws ++ [WLoop]) = sum_list (w_pos <$> ws) + 2.
Proof.
  rewrite fmap_app. generalize (w_pos <$> ws).
  induction l as [|x l IH]; simpl in *; lia.
Qed.

Lemma enqueue_length_le i ts : length (enqueue i ts).1 ≤ length ts.
Proof.
  revert i. induction ts as [|[[f a] k] ts IH]; intros i; simpl; [done|].
  destruct (is_basestring a); simpl; [lia|].
  specialize (IH (S i)). destruct (enqueue (S i) ts) as [q err]; simpl in *.
  lia.
Qed.

Lemma work_set_thread i w w' st :
  threads st !! i = Some w →
  work (set_thread i w' st) + w_pos w = work st + w_pos w'.
Proof.
  intros Hi. unfold work, set_thread, set_threads. cbn [queue threads].
  pose proof (pos_insert (threads st) i w w' Hi). lia.
Qed.

(** Every statement of a worker that has not ended lowers [work] and leaves
    the caller where it is. *)
Lemma worker_moves i w st :
  threads st !! i = Some w → w_pos w ≠ 0 →
  ∃ st', _wrapped i st = Some st' ∧ work st' < work st
         ∧ caller st' = caller st
         ∧ length (threads st') = length (threads st).
Proof.
  intros Hi Hw. unfold _wrapped. rewrite Hi.
  assert (∀ w' s, threads s = threads st → work s ≤ work st + 9 →
            work s + w_pos w' < work st + w_pos w →
            work (set_thread i w' s) < work st
            ∧ caller (set_thread i w' s) = caller s
            ∧ length (threads (set_thread i w' s)) = length (threads st))
    as Hmove.
  { intros w' s Hth Hle Hlt. split_and!; [|done|].
    - rewrite <- Hth in Hi.
      pose proof (work_set_thread i w w' s Hi). lia.
    - unfold set_thread, set_threads. cbn [threads].
      by rewrite length_insert, Hth. }
  destruct w as [| |t|t|t e|t e|t e|t| |t]; try done.
  - destruct (keep_running st); eexists; (split; [reflexivity|]);
      apply Hmove; first [done|unfold work; simpl; lia].
  - destruct (queue st) as [|t q] eqn:Hq; eexists; (split; [reflexivity|]).
    + apply Hmove; first [done|unfold work; simpl; lia].
    + assert (work (set_queue q st) + 9 = work st) as Hwq.
      { unfold work, set_queue. cbn [queue threads]. rewrite Hq. simpl. lia. }
      destruct (Hmove (WGot t) (set_queue q st)) as (? & ? & ?);
        [done|lia|simpl; lia|]. by split_and!.
  - eexists; split; [reflexivity|].
    destruct (Hmove (WCall t)
                (add_attempted t.1 (add_log (LogDebug i t.2) st)))
      as (? & ? & ?); [done|unfold work; simpl; lia..|]. by split_and!.
  - destruct (run_task t.2) as [|e]; [|destruct (is_Exception e)];
      eexists; (split; [reflexivity|]); apply Hmove; first [done|unfold work; simpl; lia].
  - eexists; split; [reflexivity|].
    destruct (Hmove (WExcLog t e)
                (set_keep_running (run_over_exceptions (self st)) st))
      as (? & ? & ?); [done|unfold work; simpl; lia..|]. by split_and!.
  - eexists; split; [reflexivity|].
    destruct (Hmove (WExcPut t e) (add_log (LogException i e) st))
      as (? & ? & ?); [done|unfold work; simpl; lia..|]. by split_and!.
  - eexists; split; [reflexivity|].
    destruct (Hmove (WTaskDone t)
                (add_recorded t.1 e
                   (set_exceptions (exceptions st ++ [e]) st)))
      as (? & ? & ?); [done|unfold work; simpl; lia..|]. by split_and!.
  - destruct (unfinished_tasks st) as [|u]; eexists;
      (split; [reflexivity|]).
    + apply Hmove; first [done|unfold work; simpl; lia].
    + destruct (Hmove WLoop
                  (add_completed t.1 (set_unfinished_tasks u st)))
        as (? & ? & ?); [done|unfold work; simpl; lia..|]. by split_and!.
Qed.

Lemma rest_or_active ws :
  Forall (λ w, w_pos w = 0) ws ∨ ∃ i w, ws !! i = Some w ∧ w_pos w ≠ 0.
Proof.
  induction ws as [|x ws [IH|(i & w & Hi & Hw)]].
  - left. constructor.
  - destruct (decide (w_pos x = 0)) as [Hx|Hx].
    + left. by constructor.
    + right. by exists 0, x.
  - right. by exists (S i), w.
Qed.

Lemma Exists_insert {A} (P : A → Prop) ws i w w' :
  Exists P ws → ws !! i = Some w → (P w → P w') → Exists P (<[i:=w']> ws).
Proof.
  intros Hex Hi Hw. apply Exists_exists in Hex as (x & Hx & HP).
  apply list_elem_of_lookup in Hx as [j Hj].
  apply Exists_exists. destruct (decide (i = j)) as [->|Hne].
  - exists w'. split.
    + apply (list_elem_of_lookup_2 _ j). apply list_lookup_insert_eq.
      by eapply lookup_lt_Some.
    + simplify_eq. by apply Hw.
  - exists x. split; [|done]. apply (list_elem_of_lookup_2 _ j).
    by rewrite list_lookup_insert_ne.
Qed.

(** In fail-fast mode the flag is only false once a failure is on record,
    or about to be. *)
Lemma flag_down_recorded p st :
  run_over_exceptions (init_attrs p) = false →
  reachable p st → keep_running st = false →
  recorded st ≠ []
  ∨ Exists (λ w, match w with
                 | WExcLog _ _ | WExcPut _ _ => True
                 | _ => False
                 end) (threads st).
Proof.
  intros Hff Hr. revert st Hr.
  apply (reachable_ind p (λ st, keep_running st = false →
    recorded st ≠ []
    ∨ Exists (λ w, match w with
                   | WExcLog _ _ | WExcPut _ _ => True
                   | _ => False
                   end) (threads st))); [done|].
  intros st st' Hr IH Hstep Hk'.
  pose proof (self_const _ _ Hr) as Hself.
  pose proof (observed_recorded p st Hr) as Hop.
  pose proof (caller_inv_reachable _ _ Hr) as Hci.
  assert (∀ obs e, observed st = obs ++ [e] → recorded st ≠ []) as Hobs.
  { intros obs e Ho Hrec. rewrite Hrec, Ho in Hop.
    apply prefix_nil_inv in Hop. by destruct obs. }
  step_cases Hstep; simpl in *.
  all: try (unfold caller_inv in Hci;
            match goal with
            | H : caller _ = MPollSet _ _ _ |- _ => rewrite H in Hci
            | H : caller _ = MFinSet _ _ |- _ => rewrite H in Hci
            end;
            destruct Hci as ((obs & Ho & _) & _); left; by eapply Hobs).
  all: try (destruct (IH Hk') as [?|Hex]; [by left|right];
            first [ done
                  | apply Exists_app; by left
                  | eapply Exists_insert; [exact Hex|done|done] ]).
  all: try (right; apply Exists_exists; eexists; split;
            [eapply (list_elem_of_lookup_2 _ _);
             apply list_lookup_insert_eq; by eapply lookup_lt_Some|done]).
  all: try (left; by destruct (recorded st)).
  all: try congruence.
  all: destruct (IH ltac:(done)) as [?|Hex]; [by left|right].
  all: eapply Exists_insert; [exact Hex|done|done].
Qed.

(** With a worker started, no worker dead and no failure that
    [except Queue.Empty] swallows, a caller that would go round its loop
    once more still has a worker at work. *)
Lemma loop_has_worker p st start last :
  run_over_exceptions (init_attrs p) = false →
  Forall (λ t, ∀ e, run_task t = Raises e → is_Queue_Empty e = false)
    (tasks_of p) →
  Forall (λ t, ∀ e, run_task t = Raises e → is_Exception e = true)
    (tasks_of p) →
  (0 < max_workers (init_attrs p))%Z →
  reachable p st → caller st = MLoop start last →
  unfinished_tasks st ≠ 0 → exceptions st = [] →
  ∃ i w, threads st !! i = Some w ∧ w_pos w ≠ 0.
Proof.
  intros Hff Hne Hexc Hn Hr Hc Hu He.
  destruct (rest_or_active (threads st)) as [Hrest|?]; [exfalso|done].
  assert (caller st ≠ MEnqueue) as Hc0 by congruence.
  destruct (tasks_inv_past_enqueue p st Hr Hc0)
    as (_ & _ & P3 & _ & P5 & _ & _ & P8).
  pose proof (caller_inv_reachable _ _ Hr) as Hci.
  unfold caller_inv in Hci. rewrite Hc in Hci.
  destruct Hci as [(Hv & Henq & _) _].
  pose proof (threads_inv_reachable _ _ Hr) as Hth.
  unfold threads_inv in Hth. rewrite Hc, Henq in Hth.
  assert (Forall (λ w, w = WExit) (threads st)) as Hexit.
  { apply Forall_forall. intros w Hw.
    rewrite Forall_forall in Hrest, P5.
    specialize (Hrest w Hw). specialize (P5 w Hw).
    destruct w as [| | | | | | | | |[j t0]]; simpl in Hrest; try done.
    exfalso. destruct P5 as (Hin & e & Hrun & Hne').
    simpl in Hrun. pose proof (enqueued_task p j t0 Hin) as Ht.
    rewrite Forall_forall in Hexc. rewrite (Hexc t0 Ht e Hrun) in Hne'.
    done. }
  assert (pulled (threads st) = [] ∧ running (threads st) = []) as [Hp Hrn].
  { unfold pulled, running. clear -Hexit.
    induction Hexit as [|w ws -> _ [IH1 IH2]]; [done|].
    by rewrite !bind_cons, IH1, IH2. }
  rewrite Hp, Hrn in P3. simpl in P3.
  assert (WExit ∈ threads st) as Hin.
  { destruct (threads st) as [|w ws]; [simpl in Hth, Hn; lia|].
    apply Forall_cons in Hexit as [-> _]. by left. }
  destruct (keep_running st) eqn:Hk.
  - rewrite (exited_drained p st Hr Hk Hin) in P3. simpl in P3. lia.
  - pose proof (observed_visible p st Hne Hr) as Hvis.
    rewrite (visible_all _ Hvis) in Hv. rewrite Hv, He in P8.
    destruct (flag_down_recorded p st Hff Hr Hk) as [Hrec|Hex].
    + by destruct (recorded st).
    + apply Exists_exists in Hex as (w & Hw & HP).
      rewrite Forall_forall in Hexit. by rewrite (Hexit w Hw) in HP.
Qed.

(** Under the same conditions every state of a run in which the call has
    not ended has a statement that lowers what is left to do. *)
Lemma goes_on p st :
  run_over_exceptions (init_attrs p) = false →
  Forall (λ t, ∀ e, run_task t = Raises e → is_Queue_Empty e = false)
    (tasks_of p) →
  Forall (λ t, ∀ e, run_task t = Raises e → is_Exception e = true)
    (tasks_of p) →
  (0 < max_workers (init_attrs p))%Z →
  reachable p st → run_result st = None →
  ∃ st', step st st' ∧ left_to_do st' < left_to_do st.
Proof.
  intros Hff Hne Hexc Hn Hr Hres.
  pose proof (self_const _ _ Hr) as Hself.
  assert ((∃ st', run_threads 0 0 0 st = Some st'
                  ∧ left_to_do st' < left_to_do st)
          ∨ ∃ i st', _wrapped i st = Some st'
                     ∧ left_to_do st' < left_to_do st)
    as [(st' & Hs & Hm)|(i & st' & Hs & Hm)];
    [|exists st'; split; [by exists (ActCaller 0 0 0)|done]
     |exists st'; split; [by exists (ActWorker i)|done]].
  unfold run_result in Hres.
  destruct (caller st) as [|k|start last|start last|start last e|start last
                           |start last|pend|pend e|pend e k|] eqn:Hc;
    [| | | | | | | | | |done].
  - (* the enqueueing loop *)
    left. unfold Sem.run_threads. rewrite Hc.
    pose proof (enqueue_length_le 0
                  (izip_longest (funcs (self st)) (args_list (self st))
                     (kwargs_list (self st)))) as Hle.
    destruct (enqueue 0 _) as [q [err|]]; eexists; (split; [reflexivity|]);
      unfold left_to_do, work, caller_left; simpl; rewrite Hc, length_app;
      simpl in Hle; lia.
  - (* starting the threads, and the test of the lengths *)
    left. unfold Sem.run_threads. rewrite Hc. destruct k as [|k].
    + destruct (shape_bad (self st)); eexists; (split; [reflexivity|]);
        unfold left_to_do, work, caller_left; simpl; rewrite Hc;
        destruct (exceptions st); lia.
    + eexists; split; [reflexivity|].
      unfold left_to_do, work, caller_left; simpl.
      rewrite Hc, pos_snoc, length_app. simpl. lia.
  - (* the test of the loop *)
    destruct (unfinished_tasks st) as [|u] eqn:Hu.
    { left. unfold Sem.run_threads. rewrite Hc, Hu.
      eexists; split; [reflexivity|].
      unfold left_to_do, work, caller_left; simpl; rewrite Hc.
      destruct (exceptions st); lia. }
    destruct (exceptions st) as [|e es] eqn:He.
    + right.
      destruct (loop_has_worker p st start last Hff Hne Hexc Hn Hr Hc
                  ltac:(lia) He) as (i & w & Hi & Hw).
      destruct (worker_moves i w st Hi Hw) as (st' & Hs & Hwork & Hc' & Hlen).
      exists i, st'. split; [done|].
      unfold left_to_do, caller_left. rewrite Hc', Hc, Hlen, He.
      destruct (exceptions st'); lia.
    + left. unfold Sem.run_threads. rewrite Hc, Hu.
      eexists; split; [reflexivity|].
      unfold left_to_do, work, caller_left; simpl; rewrite Hc, He. lia.
  - (* the poll *)
    left. unfold Sem.run_threads. rewrite Hc.
    destruct (exceptions st) as [|e es] eqn:He;
      eexists; (split; [reflexivity|]);
      unfold left_to_do, work, caller_left; simpl; rewrite Hc, ?He; lia.
  - (* a record in hand *)
    left. unfold Sem.run_threads. rewrite Hc.
    pose proof (caller_inv_reachable _ _ Hr) as Hci.
    unfold caller_inv in Hci. rewrite Hc in Hci.
    destruct Hci as ((obs & Hobs & _) & _).
    pose proof (observed_visible p st Hne Hr) as Hvis.
    rewrite Hobs in Hvis. apply Forall_app in Hvis as [_ Hve].
    apply Forall_cons in Hve as [Hve _]. simpl in Hve. rewrite Hve.
    eexists; split; [reflexivity|].
    unfold left_to_do, work, caller_left; simpl; rewrite Hc. lia.
  - (* the progress step *)
    left. unfold Sem.run_threads. rewrite Hc.
    destruct (output_interval (self st)) as [interval|];
      [destruct (interval <? 0 - last)%float|];
      eexists; (split; [reflexivity|]);
      unfold left_to_do, work, caller_left; simpl; rewrite Hc;
      destruct (exceptions st); lia.
  - (* the sleep *)
    left. unfold Sem.run_threads. rewrite Hc.
    eexists; split; [reflexivity|].
    unfold left_to_do, work, caller_left; simpl; rewrite Hc.
    destruct (exceptions st); lia.
  - (* the finally block *)
    left. unfold Sem.run_threads. rewrite Hc.
    destruct (exceptions st) as [|e es] eqn:He;
      eexists; (split; [reflexivity|]);
      unfold left_to_do, work, caller_left; simpl; rewrite Hc; lia.
  - left. unfold Sem.run_threads. rewrite Hc.
    eexists; split; [reflexivity|].
    unfold left_to_do, work, caller_left; simpl; rewrite Hc. lia.
  - (* the joins *)
    left. unfold Sem.run_threads. rewrite Hc.
    destruct (k <? length (threads st)) eqn:Hk;
      eexists; (split; [reflexivity|]);
      unfold left_to_do, work, caller_left; simpl; rewrite Hc.
    + apply Nat.ltb_lt in Hk. lia.
    + lia.
Qed.

(** So the call can end from every state of such a run. *)
Lemma can_end p st :
  run_over_exceptions (init_attrs p) = false →
  Forall (λ t, ∀ e, run_task t = Raises e → is_Queue_Empty e = false)
    (tasks_of p) →
  Forall (λ t, ∀ e, run_task t = Raises e → is_Exception e = true)
    (tasks_of p) →
  (0 < max_workers (init_attrs p))%Z →
  reachable p st →
  ∃ st' r, rtc step st st' ∧ run_result st' = Some r.
Proof.
  intros Hff Hne Hexc Hn.
  remember (left_to_do st) as m eqn:Hm. revert st Hm.
  induction m as [m IH] using lt_wf_ind. intros st -> Hr.
  destruct (run_result st) as [r|] eqn:Hres.
  { exists st, r. split; [apply rtc_refl|done]. }
  destruct (goes_on p st Hff Hne Hexc Hn Hr Hres) as (st1 & Hstep & Hlt).
  destruct (IH _ Hlt st1 eq_refl (reachable_step _ _ _ Hr Hstep))
    as (st' & r & Hsteps & Hres').
  exists st', r. split; [by eapply rtc_l|done].
Qed.

(** C1, amended: in fail-fast mode, for an input that passes both shape
    checks and whose tasks raise no instance of [Queue.Empty]:
    [run_threads] returns normally only when every task returns; otherwise
    it raises, unchanged, a failure some task raised, namely the last of the
    at most two records the caller took from the channel (the one found in
    the loop, unless the [finally] block found a further one), which are the
    first records put there; once the caller has taken a record the shared
    flag is false, it stays false, a worker that tests it then returns
    without pulling, and a worker inside a task still finishes it. The call
    does end: with at least one worker and tasks that raise nothing outside
    of [Exception], every state of a run can be continued, each statement
    lowering what is left to do, to the end of the call, which is a normal
    return when every task returns and such a raise when one does not. *)
Theorem fail_fast_reraise p :
  p_run_over_exceptions p && p_i_know_what_im_doing p = false →
  Forall (λ a, is_basestring a = false) (args_list (init_attrs p)) →
  shape_bad (init_attrs p) = false →
  Forall (λ t, ∀ e, run_task t = Raises e → is_Queue_Empty e = false)
    (tasks_of p) →
  ∀ st, reachable p st →
    (∀ r, run_result st = Some r →
       (r = Returned ∧ Forall (λ t, run_task t = Returns) (tasks_of p))
       ∨ ∃ e, r = Raised e ∧ last (observed st) = Some e
              ∧ observed st `prefix_of` (recorded st).*2
              ∧ length (observed st) ≤ 2
              ∧ ∃ j t, (j, t) ∈ enqueued p ∧ run_task t = Raises e)
    ∧ (observed st ≠ [] → keep_running st = false)
    ∧ (keep_running st = false →
       (∀ st', step st st' → keep_running st' = false)
       ∧ (∀ i, threads st !! i = Some WLoop →
               _wrapped i st = Some (set_thread i WExit st)))
    ∧ (∀ i t, threads st !! i = Some (WCall t) →
              ∃ st', _wrapped i st = Some st'
                     ∧ ∃ w, threads st' !! i = Some w ∧ w ≠ WCall t)
    ∧ ((0 < max_workers (init_attrs p))%Z →
       Forall (λ t, ∀ e, run_task t = Raises e → is_Exception e = true)
         (tasks_of p) →
       (run_result st = None →
        ∃ st1, step st st1 ∧ left_to_do st1 < left_to_do st)
       ∧ ∃ st' r,
           rtc step st st' ∧ run_result st' = Some r
           ∧ (Forall (λ t, run_task t = Returns) (tasks_of p) →
              r = Returned)
           ∧ (¬ Forall (λ t, run_task t = Returns) (tasks_of p) →
              ∃ e, r = Raised e ∧ last (observed st') = Some e
                   ∧ ∃ j t, (j, t) ∈ enqueued p ∧ run_task t = Raises e)).
Proof.
  intros Hff Hno Hshape Hne.
  assert ((enqueue 0 (tasks_of p)).2 = None) as Henq.
  { unfold tasks_of. by rewrite enqueue_all by by apply tasks_no_basestring. }
  assert (∀ e, ¬ config_error format_lists p e) as Hcfg.
  { intros e [[_ ?]|(_ & _ & ?)]; congruence. }
  assert (∀ st, reachable p st →
            ∀ r, run_result st = Some r →
              (r = Returned ∧ Forall (λ t, run_task t = Returns) (tasks_of p))
              ∨ ∃ e, r = Raised e ∧ last (observed st) = Some e
                     ∧ observed st `prefix_of` (recorded st).*2
                     ∧ length (observed st) ≤ 2
                     ∧ ∃ j t, (j, t) ∈ enqueued p ∧ run_task t = Raises e)
    as Hresult; [|intros st Hr; pose proof (self_const _ _ Hr) as Hself;
                  split_and!; [by apply Hresult|..]].
  - intros st Hr. pose proof (observed_visible p st Hne Hr) as Hvis.
    intros r Hres. unfold run_result in Hres.
    destruct (caller st) as [| | | | | | | | | |pend found] eqn:Hc; try done.
    simplify_eq.
    pose proof (caller_inv_reachable _ _ Hr) as Hci.
    unfold caller_inv in Hci. rewrite Hc in Hci.
    assert (∀ e, e ∈ observed st →
              ∃ j t, (j, t) ∈ enqueued p ∧ run_task t = Raises e) as Htask.
    { intros e. by apply observed_task. }
    pose proof (observed_recorded p st Hr) as Hpre.
    destruct found as [e'|].
    + right. destruct Hci as ((obs & Hobs & Hp) & _).
      rewrite Hobs in Hvis. apply Forall_app in Hvis as [Hvo Hve].
      apply Forall_cons in Hve as [Hve _]. simpl in Hve.
      exists e'. rewrite Hobs in *. unfold outcome_of. rewrite Hve.
      assert (length obs ≤ 1) as Hlen.
      { destruct pend as [e|]; simpl in Hp; rewrite (visible_all obs Hvo) in Hp.
        - destruct Hp as [[? _]|[-> _]]; [by destruct (Hcfg e)|simpl; lia].
        - destruct Hp as [-> _]. simpl. lia. }
      split_and!; try done.
      * by rewrite last_snoc.
      * rewrite length_app. simpl. lia.
      * apply Htask. set_solver.
    + destruct Hci as (Hp & _ & Hu). destruct pend as [e|]; simpl in Hp.
      * right. rewrite (visible_all _ Hvis) in Hp.
        destruct Hp as [[? _]|[Hobs _]]; [by destruct (Hcfg e)|].
        exists e. rewrite Hobs in *. split_and!; try done.
        -- simpl. lia.
        -- apply Htask. set_solver.
      * left. split; [done|]. destruct (Hu eq_refl) as [Hu0 Hex].
        destruct Hp as [Hv _]. rewrite (visible_all _ Hvis) in Hv.
        destruct (tasks_inv_past_enqueue p st Hr)
          as (_ & _ & _ & _ & _ & _ & _ & P8); [congruence|].
        rewrite Hv, Hex in P8. apply fmap_nil_inv in P8.
        apply (returned_all_return p st); try done. congruence.
  - intros Hobs. destruct (keep_running st) eqn:Hk; [|done].
    destruct (recorded_flag_down p st Hff Hr Hk) as [Hrec _].
    destruct (observed_recorded p st Hr) as [k Hk'].
    rewrite Hrec in Hk'. symmetry in Hk'.
    by apply app_eq_nil in Hk' as [? _].
  - intros Hk. split.
    + intros st'. apply keep_running_stays_false; [|done].
      by rewrite Hself.
    + intros i Hi. unfold _wrapped. by rewrite Hi, Hk.
  - intros i t Hi. pose proof (lookup_lt_Some _ _ _ Hi) as Hlt.
    unfold _wrapped. rewrite Hi.
    destruct (run_task t.2) as [|e]; [|destruct (is_Exception e)];
      eexists; (split; [done|]); simpl;
      rewrite list_lookup_insert_eq by done; eexists; split; done.
  - intros Hn Hexc. split.
    { intros Hres. by apply (goes_on p st). }
    destruct (can_end p st Hff Hne Hexc Hn Hr) as (st' & r & Hsteps & Hres).
    assert (reachable p st') as Hr' by (unfold Sem.reachable; by etrans).
    exists st', r. split_and!; [done|done| |].
    + intros Hall.
      destruct (Hresult st' Hr' r Hres)
        as [[-> _]|(e & _ & _ & _ & _ & j & t & Hin & Hrun)]; [done|].
      rewrite Forall_forall in Hall.
      rewrite (Hall t (enqueued_task p j t Hin)) in Hrun. done.
    + intros Hsome.
      destruct (Hresult st' Hr' r Hres)
        as [[_ Hall]|(e & -> & Hlast & _ & _ & Htask)]; [done|].
      by exists e.
Qed.

(** ** Finalization *)

(** The [finally] block joins the threads exactly when its check of the
    channel finds a record, each join with the configured timeout, and then
    raises the record inside its own [try]. *)
Lemma finalization_joins p st pend found :
  reachable p st → caller st = MDone pend found →
  run_result st = Some (outcome_of pend found)
  ∧ match found with
    | Some e =>
        joined st = joins_upto (self st) (length (threads st))
        ∧ last (observed st) = Some e
    | None => joined st = []
    end.
Proof.
  intros Hr Hc. pose proof (caller_inv_reachable _ _ Hr) as Hci.
  unfold caller_inv in Hci. rewrite Hc in Hci.
  split; [unfold run_result; by rewrite Hc|].
  destruct found as [e|].
  - destruct Hci as ((obs & -> & _) & ? & _). split; [done|].
    by rewrite last_snoc.
  - by destruct Hci as (_ & ? & _).
Qed.

Lemma no_join_before_finalization p st :
  reachable p st →
  match caller st with
  | MJoin _ _ _ | MDone _ (Some _) => True
  | _ => joined st = []
  end.
Proof.
  intros Hr. pose proof (caller_inv_reachable _ _ Hr) as Hci.
  unfold caller_inv in Hci.
  destruct (caller st) as [| | | | | | | | | |? [?|]]; try done; tauto.
Qed.

(** The test of lines 115-116 is made with every padded triple enqueued and
    every thread started. *)
Lemma shape_check_late p st :
  reachable p st → caller st = MStart 0 →
  length (threads st) = Z.to_nat (max_workers (init_attrs p))
  ∧ enqueued p = zip (seq 0 (length (tasks_of p))) (tasks_of p)
  ∧ unfinished_tasks st + length (completed st) = length (tasks_of p).
Proof.
  intros Hr Hc.
  pose proof (threads_inv_reachable _ _ Hr) as Hth.
  pose proof (caller_inv_reachable _ _ Hr) as Hci.
  unfold threads_inv in Hth. unfold caller_inv in Hci.
  rewrite Hc in Hth, Hci. destruct Hci as (_ & _ & Henq).
  split_and!; [lia|by apply enqueued_all|].
  destruct (tasks_inv_past_enqueue p st Hr) as (P1 & P2 & P3 & _);
    [congruence|].
  apply Permutation_length in P1, P2.
  rewrite length_seq, !length_app, length_fmap in P1.
  rewrite length_app in P2. rewrite <- (enqueued_length p Henq). lia.
Qed.

(** ** Thread names *)

Lemma append_assoc (a b c : string) :
  ((a ++ b) ++ c = a ++ (b ++ c))%string.
Proof. induction a as [|x a IH]; simpl; [done|]. by rewrite IH. Qed.

Lemma split_nonempty sep s : str_split sep s ≠ [].
Proof.
  destruct s as [|c s]; simpl; [done|].
  destruct (Ascii.eqb c sep); [done|]. by destruct (str_split sep s).
Qed.

Lemma split_app sep a b :
  str_split sep (a ++ String sep b)%string = str_split sep a ++ str_split sep b.
Proof.
  induction a as [|c a IH]; simpl.
  { by rewrite Ascii.eqb_refl. }
  destruct (Ascii.eqb c sep); [by rewrite IH|].
  rewrite IH. pose proof (split_nonempty sep a).
  by destruct (str_split sep a).
Qed.

Lemma split_segment sep s seg :
  seg ∈ str_split sep s → str_split sep seg = [seg].
Proof.
  revert seg. induction s as [|c s IH]; intros seg; simpl.
  { by intros ->%list_elem_of_singleton. }
  destruct (Ascii.eqb c sep) eqn:Hc.
  { intros [->|?]%elem_of_cons; [done|by apply IH]. }
  pose proof (split_nonempty sep s).
  destruct (str_split sep s) as [|seg0 rest]; [done|].
  intros [->|?]%elem_of_cons; [|apply IH; by right].
  simpl. rewrite Hc, (IH seg0); [done|by left].
Qed.

Lemma last_segment_app a b :
  last_segment (a ++ String "-" b)%string = last_segment b.
Proof.
  unfold last_segment. rewrite split_app, last_app.
  pose proof (split_nonempty "-" b) as Hne.
  apply last_is_Some in Hne as [x ->]. done.
Qed.

Lemma last_segment_idemp s : last_segment (last_segment s) = last_segment s.
Proof.
  unfold last_segment at 2 3.
  pose proof (split_nonempty "-" s) as Hne.
  apply last_is_Some in Hne as [x Hx]. rewrite Hx. simpl.
  unfold last_segment. rewrite (split_segment "-" s x); [done|].
  by eapply last_Some_elem_of.
Qed.

Lemma renamed_segment f_module f_name num :
  last_segment ("Parallel-" ++ f_module ++ "." ++ f_name ++ "-" ++ num)%string
  = last_segment num.
Proof.
  replace ("Parallel-" ++ f_module ++ "." ++ f_name ++ "-" ++ num)%string
    with (("Parallel-" ++ f_module ++ "." ++ f_name) ++ String "-" num)%string
    by (by rewrite !append_assoc).
  apply last_segment_app.
Qed.

Lemma worker_name_segment thread_name :
  last_segment (worker_name thread_name) = last_segment thread_name.
Proof.
  unfold worker_name.
  change ("Parallel-Worker-" ++ thread_name)%string
    with ("Parallel-Worker" ++ String "-" thread_name)%string.
  apply last_segment_app.
Qed.

Lemma name_after_task_segment name t :
  last_segment (name_after_task name t) = last_segment name.
Proof.
  unfold name_after_task, _set_current_thread_name_from_func_name, run_task.
  destruct t as [[[m n body|] a] k]; cbn [fst snd]; [|done].
  destruct (body (star_args a) k); [done|].
  by rewrite renamed_segment, last_segment_idemp.
Qed.

Lemma name_after_segment thread_name ts :
  last_segment (name_after thread_name ts) = last_segment thread_name.
Proof.
  unfold name_after. induction ts as [|t ts IH] using rev_ind.
  { apply worker_name_segment. }
  rewrite foldl_app. cbn [foldl]. by rewrite name_after_task_segment.
Qed.

(** X1: whatever tasks a worker handles, and however they end, the last
    dash-separated part of its name, the number the thread was created with,
    stays the one of the name the thread had when it started. *)
Theorem thread_number_kept thread_name ts :
  last_segment (name_after thread_name ts) = last_segment thread_name.
Proof.
  revert ts. apply (rev_ind (λ ts, last_segment (name_after thread_name ts)
                                   = last_segment thread_name)).
  - apply worker_name_segment.
  - intros t ts _. unfold name_after. rewrite foldl_app. cbn [foldl].
    rewrite name_after_task_segment. apply name_after_segment.
Qed.

Lemma last_failed_snoc ts t :
  last_failed (ts ++ [t])
  = match failed_label t with
    | Some l => Some l
    | None => last_failed ts
    end.
Proof.
  unfold last_failed. rewrite omap_app. simpl.
  destruct (failed_label t); [by rewrite last_snoc|by rewrite app_nil_r].
Qed.

(** X2: the name of a worker that has handled the tasks [ts] is the label of
    the last of them whose call raised (the function's module and name, with
    the thread's number), and the name the worker started with when none
    did: a failure leaves its label on the thread, and later successes
    restore that label, not the starting name. *)
Theorem name_is_last_failure thread_name ts :
  name_after thread_name ts
  = match last_failed ts with
    | Some (f_module, f_name) =>
        ("Parallel-" ++ f_module ++ "." ++ f_name ++ "-"
         ++ last_segment thread_name)%string
    | None => worker_name thread_name
    end.
Proof.
  induction ts as [|t ts IH] using rev_ind; [done|].
  rewrite last_failed_snoc.
  pose proof (name_after_segment thread_name ts) as Hnum.
  unfold name_after in *. rewrite foldl_app. cbn [foldl].
  set (name := foldl name_after_task (worker_name thread_name) ts) in *.
  clearbody name.
  unfold name_after_task, _set_current_thread_name_from_func_name,
    failed_label, run_task.
  destruct t as [[[m n body|] a] k]; cbn [fst snd]; [|done].
  destruct (body (star_args a) k); [done|]. by rewrite Hnum.
Qed.

(** ** The enqueueing loop on any input *)

Lemma enqueue_prefix i ts :
  ∃ k, k ≤ length ts
    ∧ Forall (λ t : task, is_basestring t.1.2 = false) (take k ts)
    ∧ (enqueue i ts).1 = zip (seq i k) (take k ts)
    ∧ ((k = length ts ∧ (enqueue i ts).2 = None)
       ∨ ∃ t, ts !! k = Some t ∧ is_basestring t.1.2 = true
              ∧ (enqueue i ts).2 = Some args_shape_error).
Proof.
  revert i. induction ts as [|[[f a] k0] ts IH]; intros i.
  { exists 0. split_and!; try done. by left. }
  simpl. destruct (is_basestring a) eqn:Ha.
  { exists 0. split_and!; try done; [lia|]. right. by eexists. }
  destruct (IH (S i)) as (k & Hk & Hok & Hq & Hend).
  destruct (enqueue (S i) ts) as [q err]. simpl in *.
  exists (S k). split_and!; try done; [lia|by constructor|by rewrite Hq|].
  destruct Hend as [[-> ->]|(t & ? & ? & ->)]; [by left|right; eauto].
Qed.

(** X3: on any input the first statement of [run_threads] puts on the queue,
    in order and numbered from 0, exactly the padded triples that come
    before the first one whose arguments are a bare string, counts them in
    [unfinished_tasks] and starts no thread; it goes on to start the threads
    when there is no such triple, and otherwise leaves the [try] body with
    the argument-shape error, the earlier triples staying on the queue. *)
Theorem enqueue_until_bare_string p t1 t2 t3 :
  ∃ k st',
    k ≤ length (tasks_of p)
    ∧ Forall (λ t : task, is_basestring t.1.2 = false) (take k (tasks_of p))
    ∧ run_threads t1 t2 t3 (__init__ p) = Some st'
    ∧ queue st' = zip (seq 0 k) (take k (tasks_of p))
    ∧ unfinished_tasks st' = k
    ∧ threads st' = []
    ∧ ((k = length (tasks_of p)
        ∧ caller st' = MStart (Z.to_nat (max_workers (init_attrs p))))
       ∨ ∃ t, tasks_of p !! k = Some t ∧ is_basestring t.1.2 = true
              ∧ caller st' = MFinally (Some args_shape_error)).
Proof.
  destruct (enqueue_prefix 0 (tasks_of p)) as (k & Hk & Hok & Hq & Hend).
  unfold Sem.run_threads. simpl.
  change (izip_longest _ _ _) with (tasks_of p).
  destruct (enqueue 0 (tasks_of p)) as [q err]. simpl in *. subst q.
  exists k. eexists. split_and!; try done.
  - simpl. rewrite length_zip_with, length_seq, length_take. lia.
  - destruct Hend as [[-> ->]|(t & ? & ? & ->)]; [by left|right; eauto].
Qed.

(** ** First in, first out *)

Lemma queue_suffix p st :
  reachable p st → caller st ≠ MEnqueue →
  ∃ k, queue st = drop k (enqueued p) ∧ k ≤ length (enqueued p).
Proof.
  intros Hr. revert st Hr.
  apply (reachable_ind p (λ st, caller st ≠ MEnqueue →
    ∃ k, queue st = drop k (enqueued p) ∧ k ≤ length (enqueued p))); [done|].
  intros st st' Hr IH Hstep Hc.
  pose proof (self_const _ _ Hr) as Hself.
  destruct (pool_inv_reachable _ _ Hr) as [[Hc0 ->]|[Hc0 _]].
  - step_cases Hstep; simpl in *; try done.
    all: exists 0; rewrite drop_0; split; [|lia].
    all: unfold enqueued, tasks_of; simpl; by rewrite H0.
  - destruct (IH Hc0) as (k & Hq & Hk).
    step_cases Hstep; simpl in *; eauto.
    all: try (exists k; split; [congruence|done]).
    exists (S k).
    assert (k < length (enqueued p)) as Hlt.
    { destruct (decide (k < length (enqueued p))) as [|Hge]; [done|].
      rewrite drop_ge in Hq by lia. done. }
    split; [|lia].
    destruct (lookup_lt_is_Some_2 (enqueued p) k Hlt) as [x Hx].
    rewrite (drop_S _ _ _ Hx) in Hq. by simplify_eq.
Qed.

(** X4: for any number of workers, the queue is at every moment the list of
    enqueued tasks without its first [k] elements, and the tasks pulled or
    begun are the first [k] positions: tasks leave the queue in the order of
    the lists given to the constructor. *)
Theorem first_in_first_out p st :
  reachable p st → caller st ≠ MEnqueue →
  ∃ k, k ≤ length (enqueued p)
    ∧ queue st = drop k (enqueued p)
    ∧ pulled (threads st) ++ attempted st ≡ₚ seq 0 k.
Proof.
  intros Hr Hc. destruct (queue_suffix p st Hr Hc) as (k & Hq & Hk).
  exists k. split_and!; try done.
  destruct (tasks_inv_past_enqueue p st Hr Hc) as (P1 & _).
  pose proof (enqueue_fst_seq 0 (tasks_of p)
              : (enqueued p).*1 = seq 0 (length (enqueued p))) as Hseq.
  rewrite Hq, fmap_drop, Hseq in P1.
  replace (length (enqueued p)) with (k + (length (enqueued p) - k)) in P1 at 1
    by lia.
  rewrite seq_app in P1. rewrite drop_seq in P1. simpl in P1.
  rewrite (Permutation_app_comm (seq 0 k)) in P1.
  symmetry. by eapply Permutation_app_inv_l.
Qed.

(** ** How a call ends, on any input *)

Lemma returned_pend p st :
  reachable p st → run_result st = Some Returned →
  unfinished_tasks st = 0 ∧ caller st ≠ MEnqueue
  ∧ (enqueue 0 (tasks_of p)).2 = None ∧ shape_bad (init_attrs p) = false.
Proof.
  intros Hr Hres. unfold run_result in Hres.
  destruct (caller st) as [| | | | | | | | | |pend found] eqn:Hc; try done.
  pose proof (caller_inv_reachable _ _ Hr) as Hci.
  unfold caller_inv in Hci. rewrite Hc in Hci.
  assert (pend = None) as ->.
  { unfold outcome_of in Hres. destruct found as [e|].
    - destruct (is_Queue_Empty e); [|by simplify_eq].
      by destruct pend.
    - by destruct pend. }
  destruct found as [e|].
  - destruct Hci as ((obs & _ & _ & ? & ?) & _ & Hu).
    split_and!; try done. by apply Hu.
  - destruct Hci as ((_ & ? & ?) & _ & Hu).
    split_and!; try done. by destruct (Hu eq_refl).
Qed.

(** X5: in either mode and whatever the tasks do, when [run_threads] returns
    normally both shape checks passed, the queue is empty, no worker holds a
    task, and every padded triple was begun exactly once and marked complete
    exactly once. *)
Theorem normal_return_all_done p st :
  reachable p st → run_result st = Some Returned →
  (enqueue 0 (tasks_of p)).2 = None
  ∧ shape_bad (init_attrs p) = false
  ∧ unfinished_tasks st = 0 ∧ queue st = []
  ∧ pulled (threads st) = [] ∧ running (threads st) = []
  ∧ attempted st ≡ₚ seq 0 (length (tasks_of p))
  ∧ completed st ≡ₚ seq 0 (length (tasks_of p)).
Proof.
  intros Hr Hres.
  destruct (returned_pend p st Hr Hres) as (Hu & Hc & Henq & Hshape).
  destruct (drained p st Hr Hc Hu) as (? & ? & ? & ? & ?).
  rewrite <- (enqueued_length p Henq). by split_and!.
Qed.

Lemma config_error_kind p e :
  config_error format_lists p e →
  is_Queue_Empty e = false ∧ is_Exception e = true.
Proof. by intros [[-> _]|[-> _]]. Qed.

Lemma visible_elem e l : e ∈ visible l → e ∈ l ∧ is_Queue_Empty e = false.
Proof. unfold visible. rewrite list_elem_of_filter. tauto. Qed.

Lemma observed_genuine p st e :
  reachable p st → e ∈ observed st →
  is_Exception e = true
  ∧ ∃ j t, (j, e) ∈ recorded st ∧ (j, t) ∈ enqueued p
           ∧ run_task t = Raises e.
Proof.
  intros Hr Hin. destruct (observed_recorded p st Hr) as [k Hk].
  assert (e ∈ (recorded st).*2) as Hrec by (rewrite Hk; set_solver).
  apply list_elem_of_fmap in Hrec as ([j e'] & -> & Hrec). simpl.
  destruct (pool_inv_reachable _ _ Hr)
    as [[_ ->]|[_ (_ & _ & _ & _ & _ & _ & P7 & _)]].
  { by apply elem_of_nil in Hrec. }
  destruct (P7 j e' Hrec) as (_ & t & ? & ? & ?). eauto 10.
Qed.

(** X6: whatever [run_threads] raises is an [Exception] that is not an
    instance of [Queue.Empty], and is either one of its own two
    [ValueError]s, on an input that fails the corresponding check, or,
    unchanged, a record the caller took from the channel, which a worker put
    there for a task whose call raised exactly that. *)
Theorem raised_is_genuine p st e :
  reachable p st → run_result st = Some (Raised e) →
  is_Queue_Empty e = false ∧ is_Exception e = true
  ∧ (config_error format_lists p e
     ∨ (e ∈ observed st
        ∧ ∃ j t, (j, e) ∈ recorded st ∧ (j, t) ∈ enqueued p
                 ∧ run_task t = Raises e)).
Proof.
  intros Hr Hres. unfold run_result in Hres.
  destruct (caller st) as [| | | | | | | | | |pend found] eqn:Hc; try done.
  pose proof (caller_inv_reachable _ _ Hr) as Hci.
  unfold caller_inv in Hci. rewrite Hc in Hci.
  assert (∀ obs, (∀ x, x ∈ obs → x ∈ observed st) →
            pend_ok format_lists p obs pend → propagate pend = Raised e →
            is_Queue_Empty e = false ∧ is_Exception e = true
            ∧ (config_error format_lists p e
               ∨ (e ∈ observed st
                  ∧ ∃ j t, (j, e) ∈ recorded st ∧ (j, t) ∈ enqueued p
                           ∧ run_task t = Raises e))) as Hpend.
  { intros obs Hsub Hp Hprop. destruct pend as [e0|]; [|done].
    simpl in Hprop, Hp. simplify_eq.
    destruct Hp as [[Hcfg _]|[Hv _]].
    - destruct (config_error_kind p e Hcfg). split_and!; try done. by left.
    - assert (e ∈ visible obs) as Hin by (rewrite Hv; by left).
      apply visible_elem in Hin as [Hin Hne].
      destruct (observed_genuine p st e Hr (Hsub _ Hin)) as [? ?].
      split_and!; try done. right. split; [by apply Hsub|done]. }
  unfold outcome_of in Hres. destruct found as [e'|].
  - destruct Hci as ((obs & Hobs & Hp) & _).
    destruct (is_Queue_Empty e') eqn:He'.
    + apply (Hpend obs); [|done|by simplify_eq].
      intros x Hx. rewrite Hobs. set_solver.
    + simplify_eq.
      assert (e ∈ observed st) as Hin by (rewrite Hobs; set_solver).
      destruct (observed_genuine p st e Hr Hin) as [? ?].
      split_and!; try done. by right.
  - destruct Hci as (Hp & _). apply (Hpend (observed st)); [done|done|].
    by simplify_eq.
Qed.

(** X7: when [funcs] is shorter than [args_list] or [kwargs_list] and no
    argument entry is a bare string, [run_threads] never returns normally:
    it raises the shape-mismatch [ValueError] when the [finally] block finds
    the channel empty or finds an instance of [Queue.Empty], and otherwise
    raises the record it finds there, which is the first one put on the
    channel. *)
Theorem shape_mismatch_result p st r :
  shape_bad (init_attrs p) = true →
  Forall (λ a, is_basestring a = false) (args_list (init_attrs p)) →
  reachable p st → run_result st = Some r →
  (r = Raised (shape_mismatch_error format_lists (init_attrs p))
   ∧ (observed st = [] ∨ ∃ e, observed st = [e] ∧ is_Queue_Empty e = true))
  ∨ ∃ e, r = Raised e ∧ observed st = [e] ∧ is_Queue_Empty e = false
         ∧ head (recorded st).*2 = Some e.
Proof.
  intros Hshape Hno Hr Hres.
  assert ((enqueue 0 (tasks_of p)).2 = None) as Henq.
  { unfold tasks_of. by rewrite enqueue_all by by apply tasks_no_basestring. }
  unfold run_result in Hres.
  destruct (caller st) as [| | | | | | | | | |pend found] eqn:Hc; try done.
  pose proof (caller_inv_reachable _ _ Hr) as Hci.
  unfold caller_inv in Hci. rewrite Hc in Hci.
  assert (∀ obs, pend_ok format_lists p obs pend →
            pend = Some (shape_mismatch_error format_lists (init_attrs p))
            ∧ obs = []) as Hpend.
  { intros obs Hp. destruct pend as [e0|]; simpl in Hp.
    - destruct Hp as [[[[_ ?]|[-> _]] ->]|(_ & _ & ?)];
        first [congruence|done].
    - destruct Hp as (_ & _ & ?). congruence. }
  simplify_eq. unfold outcome_of. destruct found as [e'|].
  - destruct Hci as ((obs & Hobs & Hp) & _).
    destruct (Hpend obs Hp) as [-> ->]. simpl in Hobs.
    destruct (is_Queue_Empty e') eqn:He'.
    + left. split; [done|]. right. eauto.
    + right. exists e'. split_and!; try done.
      destruct (observed_recorded p st Hr) as [k Hk].
      by rewrite Hk, Hobs.
  - destruct Hci as (Hp & _). destruct (Hpend _ Hp) as [-> ->].
    left. split; [done|]. by left.
Qed.

(** ** The counter, the threads and the joins *)

(** X8: once the tasks are enqueued, in either mode and whether tasks fail
    or not, [unfinished_tasks] is the number of enqueued tasks not yet
    marked complete; no task is marked complete twice; and the size of the
    queue never exceeds the counter. *)
Theorem counter_accurate p st :
  reachable p st → caller st ≠ MEnqueue →
  unfinished_tasks st + length (completed st) = length (enqueued p)
  ∧ NoDup (completed st)
  ∧ (∀ j, j ∈ completed st → j < length (enqueued p) ∧ j ∈ attempted st)
  ∧ length (queue st) ≤ unfinished_tasks st.
Proof.
  intros Hr Hc.
  destruct (tasks_inv_past_enqueue p st Hr Hc) as (P1 & P2 & P3 & _).
  destruct (tasks_once p st Hr) as (_ & _ & Hnd).
  split_and!.
  - apply Permutation_length in P1, P2.
    rewrite length_seq, !length_app, length_fmap in P1.
    rewrite length_app in P2. lia.
  - by apply NoDup_app in Hnd as (_ & _ & ?).
  - intros j Hj. assert (j ∈ attempted st) as Hat by (rewrite P2; set_solver).
    split; [|done].
    assert (j ∈ seq 0 (length (enqueued p))) as Hin by (rewrite P1; set_solver).
    apply elem_of_seq in Hin. lia.
  - lia.
Qed.

(** X9: [run_threads] never has more than [max_workers] threads started; it
    has none when the enqueueing loop raised, and exactly [max_workers]
    (none when that is not positive) from the length test on. *)
Theorem threads_started p st :
  reachable p st →
  length (threads st) ≤ Z.to_nat (max_workers (init_attrs p))
  ∧ ((enqueue 0 (tasks_of p)).2 ≠ None → threads st = [])
  ∧ ((enqueue 0 (tasks_of p)).2 = None →
     caller st ≠ MEnqueue → (∀ k, caller st ≠ MStart (S k)) →
     length (threads st) = Z.to_nat (max_workers (init_attrs p))).
Proof.
  intros Hr. pose proof (threads_inv_reachable _ _ Hr) as Hth.
  pose proof (caller_inv_reachable _ _ Hr) as Hci.
  unfold threads_inv in Hth. unfold caller_inv in Hci.
  destruct (caller st) as [|k| | | | | | | | |] eqn:Hc;
    destruct ((enqueue 0 (tasks_of p)).2) eqn:Henq.
  all: split_and!; try done; try lia.
  all: try (rewrite Hth; simpl; lia).
  all: try (by destruct Hci as (_ & _ & ?)).
  intros _ _ Hk. destruct k as [|k]; [lia|]. by destruct (Hk k).
Qed.

(** X10: [thread.join] is only ever called by the [finally] block after its
    check of the channel found a record: the threads joined so far are the
    first started, each once, in the order they were started and with the
    configured timeout; all of them are joined when the call ends after such
    a record was found, and none when the check found the channel empty. *)
Theorem join_discipline p st :
  reachable p st →
  (∃ k, k ≤ length (threads st) ∧ joined st = joins_upto (self st) k)
  ∧ (joined st ≠ [] →
     ∃ pend e, last (observed st) = Some e
               ∧ (caller st = MDone pend (Some e)
                  ∨ ∃ k, caller st = MJoin pend e k))
  ∧ (∀ pend e, caller st = MDone pend (Some e) →
               joined st = joins_upto (self st) (length (threads st)))
  ∧ (∀ pend, caller st = MDone pend None → joined st = []).
Proof.
  intros Hr. pose proof (caller_inv_reachable _ _ Hr) as Hci.
  unfold caller_inv in Hci.
  destruct (caller st) as [| | | | | | | | |pend e k|pend [e|]] eqn:Hc.
  all: try (assert (joined st = []) as Hj by tauto;
            split_and!;
            first [by exists 0; split; [lia|]
                  |by intros; simplify_eq
                  |by intros ?]).
  - destruct Hci as ((obs & Hobs & _) & Hj & Hk & _).
    split_and!; [by exists k| |done|done].
    intros _. exists pend, e. rewrite Hobs, last_snoc. split; [done|].
    right. by exists k.
  - destruct Hci as ((obs & Hobs & _) & Hj & _).
    split_and!; [by eexists| |by intros; simplify_eq|done].
    intros _. exists pend, e. rewrite Hobs, last_snoc. split; [done|by left].
Qed.

(** X11: a worker whose task raised outside of [Exception] is dead with the
    task never marked complete: from then on [unfinished_tasks] stays
    positive and [run_threads] cannot return normally. *)
Theorem dead_worker_blocks_return p st i t :
  reachable p st → threads st !! i = Some (WDead t) →
  (∃ e, run_task t.2 = Raises e ∧ is_Exception e = false)
  ∧ 0 < unfinished_tasks st
  ∧ t.1 ∉ completed st
  ∧ run_result st ≠ Some Returned.
Proof.
  intros Hr Hi.
  destruct (pool_inv_reachable _ _ Hr) as [[_ ->]|[_ Hinv]]; [done|].
  destruct Hinv as (_ & _ & P3 & _ & P5 & _).
  pose proof (Forall_lookup_1 _ _ _ _ P5 Hi) as [_ Hdead].
  pose proof (running_length_pos _ _ _ Hi) as Hpos.
  simpl in Hpos. specialize (Hpos ltac:(done)).
  split_and!; [done|lia| |].
  - destruct (tasks_once p st Hr) as (_ & _ & Hnd).
    apply NoDup_app in Hnd as (_ & Hdis & _). intros Hin.
    apply (Hdis t.1); [|done]. apply list_elem_of_bind.
    exists (WDead t). split; [by left|]. by eapply list_elem_of_lookup_2.
  - intros Hres. destruct (returned_pend p st Hr Hres) as (? & _). lia.
Qed.

(** ** Tasks begun after the flag went down *)

Lemma late_cons w ws : late (w :: ws) = w_late w + late ws.
Proof. done. Qed.

Lemma late_le_length ws : late ws ≤ length ws.
Proof.
  induction ws as [|w ws IH]; [done|].
  rewrite late_cons. simpl. destruct w; simpl; lia.
Qed.

Lemma late_insert ws i w w' :
  ws !! i = Some w →
  late (<[i:=w']> ws) + w_late w = late ws + w_late w'.
Proof.
  revert i. induction ws as [|x ws IH]; intros [|i] Hi; simplify_eq/=.
  - rewrite !late_cons. lia.
  - rewrite !late_cons. specialize (IH i Hi). lia.
Qed.

Lemma late_snoc ws : late (ws ++ [WLoop]) = late ws.
Proof.
  induction ws as [|x ws IH]; [done|].
  rewrite <- app_comm_cons, !late_cons. lia.
Qed.

Lemma late_lt_length ws i w :
  ws !! i = Some w → w_late w = 0 → late ws < length ws.
Proof.
  revert i. induction ws as [|x ws IH]; intros [|i] Hi H0; simplify_eq/=.
  - rewrite late_cons, H0. pose proof (late_le_length ws). lia.
  - rewrite late_cons. specialize (IH i Hi H0). destruct x; simpl; lia.
Qed.

Lemma late_step st st' :
  run_over_exceptions (self st) = false → keep_running st = false →
  step st st' →
  ∃ l, attempted st' = attempted st ++ l
       ∧ length l + late (threads st') ≤ late (threads st)
       ∧ length (threads st) ≤ length (threads st').
Proof.
  intros Hff Hk Hstep. step_cases Hstep; simpl in *; try congruence.
  all: try (exists []; rewrite app_nil_r, ?late_snoc, ?length_app;
            split_and!; [done|simpl; lia|simpl; lia]).
  all: rewrite ?length_insert.
  all: match goal with
       | H : threads _ !! ?i = Some _ |- context [late (<[?i:=?w']> _)] =>
           pose proof (late_insert _ _ _ w' H)
       end; simpl in *.
  all: try (exists []; rewrite app_nil_r; split_and!; [done|simpl; lia|lia]).
  all: try (eexists [_]; split_and!; [done|simpl; lia|lia]).
Qed.
Lemma threads_at_most p st :
  reachable p st →
  length (threads st) ≤ Z.to_nat (max_workers (init_attrs p)).
Proof.
  intros Hr. pose proof (threads_inv_reachable _ _ Hr) as Hth.
  unfold threads_inv in Hth.
  destruct (caller st); destruct ((enqueue 0 (tasks_of p)).2);
    try lia; rewrite Hth; simpl; lia.
Qed.

Lemma late_lt p st :
  run_over_exceptions (init_attrs p) = false →
  reachable p st → keep_running st = false →
  late (threads st) < length (threads st).
Proof.
  intros Hff Hr. revert st Hr.
  apply (reachable_ind p (λ st, keep_running st = false →
                                 late (threads st) < length (threads st)));
    [done|].
  intros st st' Hr IH Hstep Hk'.
  pose proof (self_const _ _ Hr) as Hself.
  destruct (keep_running st) eqn:Hk.
  - destruct (recorded_flag_down p st Hff Hr Hk) as [Hrec _].
    pose proof (observed_recorded p st Hr) as Hop.
    rewrite Hrec in Hop. apply prefix_nil_inv in Hop.
    pose proof (caller_inv_reachable _ _ Hr) as Hci.
    unfold caller_inv in Hci.
    step_cases Hstep; simpl in *; try congruence.
    all: try (destruct Hci as ((obs & Hobs & _) & _); rewrite Hop in Hobs;
              by destruct obs).
    all: rewrite length_insert.
    all: match goal with
         | H : threads _ !! ?i = Some _ |- context [late (<[?i:=?w']> _)] =>
             pose proof (late_insert _ _ _ w' H) as Hl;
             pose proof (late_lt_length _ _ _ H eq_refl)
         end.
    all: simpl in Hl; lia.
  - specialize (IH eq_refl).
    destruct (late_step st st') as (l & _ & ? & ?); [congruence|done|done|].
    lia.
Qed.

(** X12: in fail-fast mode, once [keep_running] is false it stays false, and
    the only tasks begun from then on are those of workers that had already
    passed the test of the loop and not yet begun their task, one each: the
    tasks begun extend the list by at most the number of such workers, which
    is less than [max_workers]. *)
Theorem fail_fast_late_starts p st st' :
  run_over_exceptions (init_attrs p) = false →
  reachable p st → keep_running st = false → rtc step st st' →
  keep_running st' = false
  ∧ late (threads st) < Z.to_nat (max_workers (init_attrs p))
  ∧ ∃ l, attempted st' = attempted st ++ l
         ∧ length l + late (threads st') ≤ late (threads st).
Proof.
  intros Hff Hr Hk Hsteps.
  pose proof (late_lt p st Hff Hr Hk) as Hlt.
  pose proof (threads_at_most p st Hr) as Hle.
  assert (reachable p st' ∧ keep_running st' = false
          ∧ ∃ l, attempted st' = attempted st ++ l
                 ∧ length l + late (threads st') ≤ late (threads st))
    as (_ & ? & ?); [|split_and!; [done|lia|done]].
  clear Hlt Hle.
  revert st' Hsteps.
  apply (rtc_ind_r (R:=step) (λ st', reachable p st' ∧ keep_running st' = false
          ∧ ∃ l, attempted st' = attempted st ++ l
                 ∧ length l + late (threads st') ≤ late (threads st)) st).
  { split_and!; [done|done|]. exists []. rewrite app_nil_r. split; [done|].
    simpl. lia. }
  intros st1 st2 _ Hstep (Hr1 & Hk1 & l & Hl & Hle).
  pose proof (self_const _ _ Hr1) as Hself.
  split_and!.
  - by eapply reachable_step.
  - apply (keep_running_stays_false st1 st2); [congruence|done|done].
  - destruct (late_step st1 st2) as (l' & Hl' & Hle' & _);
      [congruence|done|done|].
    exists (l ++ l'). rewrite Hl', Hl, app_assoc, length_app.
    split; [done|lia].
Qed.

(** ** A single worker *)

Lemma seq_prefix (l l' : list nat) k :
  l ++ l' = seq 0 k → l = seq 0 (length l).
Proof.
  intros H.
  assert (length l ≤ k).
  { apply (f_equal length) in H. rewrite length_app, length_seq in H. lia. }
  rewrite <- (take_app_length l l') at 1. rewrite H, take_seq.
  f_equal. lia.
Qed.

Lemma seq_snoc (l : list nat) x k :
  l ++ [x] = seq 0 k → k = S x ∧ length l = x.
Proof.
  intros H. pose proof (f_equal length H) as Hlen.
  rewrite length_app, length_seq in Hlen. simpl in Hlen.
  destruct k as [|k]; [lia|]. rewrite seq_S in H.
  apply app_inj_tail in H as [_ ->]. simpl. lia.
Qed.

Lemma single_thread p st i w :
  Z.to_nat (max_workers (init_attrs p)) ≤ 1 → reachable p st →
  threads st !! i = Some w → i = 0 ∧ threads st = [w].
Proof.
  intros Hn Hr Hi. pose proof (threads_at_most p st Hr) as Hle.
  destruct (threads st) as [|w0 [|]]; simpl in *; [done| |lia].
  destruct i as [|i]; simplify_eq/=; done.
Qed.

Lemma single_order p st :
  Z.to_nat (max_workers (init_attrs p)) ≤ 1 → reachable p st →
  attempted st = completed st ++ running (threads st)
  ∧ (caller st ≠ MEnqueue →
     ∃ k, queue st = drop k (enqueued p)
          ∧ attempted st ++ pulled (threads st) = seq 0 k).
Proof.
  intros Hn Hr. revert st Hr.
  apply (reachable_ind p (λ st,
    attempted st = completed st ++ running (threads st)
    ∧ (caller st ≠ MEnqueue →
       ∃ k, queue st = drop k (enqueued p)
            ∧ attempted st ++ pulled (threads st) = seq 0 k))); [done|].
  intros st st' Hr [IH1 IH2] Hstep.
  pose proof (self_const _ _ Hr) as Hself.
  pose proof (enqueue_fst_seq 0 (tasks_of p)
              : (enqueued p).*1 = seq 0 (length (enqueued p))) as Hseq.
  destruct (pool_inv_reachable _ _ Hr) as [[Hc0 ->]|[Hc0 _]].
  - step_cases Hstep; simpl in *; try done.
    all: split; [done|]; intros _; exists 0; rewrite drop_0; split; [|done].
    all: unfold enqueued, tasks_of; simpl.
    all: match goal with H : enqueue _ _ = _ |- _ => by rewrite H end.
  - destruct (IH2 Hc0) as (k & Hq & Hk).
    step_cases Hstep; simpl in *.
    all: try match goal with
             | H : threads _ !! _ = Some _ |- _ =>
                 destruct (single_thread _ _ _ _ Hn Hr H) as [-> Hth];
                 rewrite Hth in *; simpl in *
             end.
    all: unfold pulled, running in *; rewrite ?bind_app in *; simpl in *.
    all: rewrite ?app_nil_r in *.
    all: try (split; [done|]; intros _; exists k; split; [congruence|done]).
    + (* the pull *)
      split; [done|]. intros _. exists (S k).
      assert (k < length (enqueued p)) as Hlt.
      { destruct (decide (k < length (enqueued p))) as [|Hge]; [done|].
        rewrite drop_ge in Hq by lia. congruence. }
      destruct (lookup_lt_is_Some_2 (enqueued p) k Hlt) as [x Hx].
      rewrite (drop_S _ _ _ Hx) in Hq.
      assert (x.1 = k) as Hxk.
      { assert ((enqueued p).*1 !! k = Some x.1) as Hf
          by by rewrite list_lookup_fmap, Hx.
        rewrite Hseq, lookup_seq in Hf. destruct Hf as [-> _]. done. }
      simplify_eq. split; [done|]. rewrite seq_S. simpl. congruence.
    + (* the task begins *)
      split; [by rewrite IH1|]. intros _. exists k.
      split; [congruence|done].
Qed.

(** X13: with at most one worker, the tasks are begun in the order of the
    lists given to the constructor, each only after the one before it was
    marked complete: the tasks begun, and the tasks marked complete, are at
    every moment the first so many positions in increasing order, with at
    most one task begun and not yet complete. *)
Theorem single_worker_in_order p st :
  (max_workers (init_attrs p) ≤ 1)%Z → reachable p st →
  attempted st = seq 0 (length (attempted st))
  ∧ completed st = seq 0 (length (completed st))
  ∧ length (completed st) ≤ length (attempted st)
  ∧ length (attempted st) ≤ S (length (completed st)).
Proof.
  intros Hn Hr.
  assert (Z.to_nat (max_workers (init_attrs p)) ≤ 1) as Hn' by lia.
  destruct (single_order p st Hn' Hr) as [H1 H2].
  assert (length (running (threads st)) ≤ 1) as Hrun.
  { pose proof (threads_at_most p st Hr) as Hle.
    destruct (threads st) as [|w [|]]; simpl in *; [lia| |lia].
    destruct w; simpl; lia. }
  assert (attempted st = seq 0 (length (attempted st))) as Ha.
  { destruct (pool_inv_reachable _ _ Hr) as [[_ ->]|[Hc0 _]]; [done|].
    destruct (H2 Hc0) as (k & _ & Hk). by eapply seq_prefix. }
  split_and!; [done| | |].
  - rewrite H1 in Ha. by eapply seq_prefix.
  - rewrite H1, length_app. lia.
  - rewrite H1, length_app. lia.
Qed.

Lemma visible_one e : visible [e] = if is_Queue_Empty e then [] else [e].
Proof.
  unfold visible. rewrite filter_cons, filter_nil.
  case_decide as Hq; [by rewrite Hq|]. by destruct (is_Queue_Empty e).
Qed.

Lemma single_running p st t :
  Z.to_nat (max_workers (init_attrs p)) ≤ 1 → reachable p st →
  running (threads st) = [t] → attempted st = seq 0 (S t).
Proof.
  intros Hn Hr Hrun. destruct (single_order p st Hn Hr) as [H1 H2].
  destruct (pool_inv_reachable _ _ Hr) as [[_ ->]|[Hc0 _]]; [done|].
  destruct (H2 Hc0) as (k & _ & Hk). apply seq_prefix in Hk.
  rewrite Hrun in H1. pose proof Hk as Hk'. rewrite H1 in Hk' at 1.
  apply seq_snoc in Hk' as [Hlen _]. by rewrite Hk, Hlen.
Qed.

Lemma single_fail_fast p st :
  run_over_exceptions (init_attrs p) = false →
  Z.to_nat (max_workers (init_attrs p)) ≤ 1 → reachable p st →
  (∀ w, w ∈ threads st →
     match w with
     | WGet | WGot _ | WCall _ | WExcSet _ _ | WExcLog _ _ | WExcPut _ _ =>
         recorded st = []
     | _ => True
     end)
  ∧ (∀ j e, (j, e) ∈ recorded st →
       recorded st = [(j, e)] ∧ attempted st = seq 0 (S j)).
Proof.
  intros Hff Hn Hr. revert st Hr.
  apply (reachable_ind p (λ st,
    (∀ w, w ∈ threads st →
       match w with
       | WGet | WGot _ | WCall _ | WExcSet _ _ | WExcLog _ _ | WExcPut _ _ =>
           recorded st = []
       | _ => True
       end)
    ∧ (∀ j e, (j, e) ∈ recorded st →
         recorded st = [(j, e)] ∧ attempted st = seq 0 (S j)))).
  { split; [by intros w Hw; apply elem_of_nil in Hw|].
    by intros j e Hin; apply elem_of_nil in Hin. }
  intros st st' Hr [IH1 IH2] Hstep.
  pose proof (self_const _ _ Hr) as Hself.
  assert (keep_running st = true → recorded st = []) as Hup
    by (intros Hk; by destruct (recorded_flag_down p st Hff Hr Hk)).
  pose proof (single_running p st) as Hsr.
  step_cases Hstep; simpl in *.
  all: try match goal with
           | H : threads _ !! _ = Some _ |- _ =>
               destruct (single_thread _ _ _ _ Hn Hr H) as [-> Hth];
               rewrite Hth in *; simpl in *;
               specialize (IH1 _ ltac:(by left)); simpl in IH1
           end.
  all: try (split; [|done]; intros w Hw; apply list_elem_of_singleton in Hw;
            subst w; by auto).
  all: try (split; [|done]; intros w Hw; apply elem_of_app in Hw as [Hw|Hw];
            [by apply IH1|apply list_elem_of_singleton in Hw; by subst w]).
  all: try done.
  - (* a task begins: nothing was recorded yet *)
    split.
    + intros w Hw. apply list_elem_of_singleton in Hw. by subst w.
    + intros j e Hin. rewrite IH1 in Hin. by apply elem_of_nil in Hin.
  - (* the record is put on the channel *)
    split.
    + intros w Hw. apply list_elem_of_singleton in Hw. by subst w.
    + intros j e0 Hin. rewrite IH1 in Hin |- *. simpl in *.
      apply list_elem_of_singleton in Hin. simplify_eq.
      split; [done|]. by apply Hsr.
Qed.

(** X14: in fail-fast mode with at most one worker, on an input that passes
    both shape checks, when [run_threads] ends either every task returned and
    it returns normally, or the first task in list order whose call raised
    is the last task begun, it raised an [Exception], and [run_threads]
    raises what that call raised; unless that is an instance of
    [Queue.Empty], in which case [run_threads] returns normally and the
    task was the last of the list (so that with tasks left after it the
    call does not end). *)
Theorem single_worker_first_failure p st r :
  run_over_exceptions (init_attrs p) = false →
  (max_workers (init_attrs p) ≤ 1)%Z →
  Forall (λ a, is_basestring a = false) (args_list (init_attrs p)) →
  shape_bad (init_attrs p) = false →
  reachable p st → run_result st = Some r →
  (Forall (λ t, run_task t = Returns) (tasks_of p) ∧ r = Returned)
  ∨ ∃ j t e,
      tasks_of p !! j = Some t ∧ run_task t = Raises e
      ∧ is_Exception e = true
      ∧ (∀ i t', i < j → tasks_of p !! i = Some t' → run_task t' = Returns)
      ∧ attempted st = seq 0 (S j)
      ∧ r = (if is_Queue_Empty e then Returned else Raised e)
      ∧ (is_Queue_Empty e = true → S j = length (tasks_of p)).
Proof.
  intros Hff Hn Hno Hshape Hr Hres.
  assert (Z.to_nat (max_workers (init_attrs p)) ≤ 1) as Hn' by lia.
  assert (r = Returned → length (attempted st) = length (tasks_of p)) as Hret.
  { intros ->. destruct (returned_pend p st Hr Hres) as (Hu & Hc0 & Henq & _).
    destruct (drained p st Hr Hc0 Hu) as (_ & _ & _ & Ha & _).
    apply Permutation_length in Ha. rewrite length_seq in Ha.
    by rewrite Ha, enqueued_length. }
  assert ((enqueue 0 (tasks_of p)).2 = None) as Henq.
  { unfold tasks_of. by rewrite enqueue_all by by apply tasks_no_basestring. }
  assert (∀ e0, ¬ config_error format_lists p e0) as Hcfg.
  { intros e0 [[_ ?]|(_ & _ & ?)]; congruence. }
  unfold run_result in Hres.
  destruct (caller st) as [| | | | | | | | | |pend found] eqn:Hc; try done.
  assert (caller st ≠ MEnqueue) as Hc0 by congruence.
  pose proof (caller_inv_reachable _ _ Hr) as Hci.
  unfold caller_inv in Hci. rewrite Hc in Hci.
  destruct (tasks_inv_past_enqueue p st Hr Hc0)
    as (_ & _ & _ & _ & _ & P6 & P7 & P8).
  destruct (single_fail_fast p st Hff Hn' Hr) as [_ Hone].
  destruct (single_order p st Hn' Hr) as [Hac _].
  pose proof (observed_recorded p st Hr) as Hop.
  simplify_eq.
  destruct (recorded st) as [|[j e] rec] eqn:Hrec.
  - (* nothing was recorded *)
    left. apply prefix_nil_inv in Hop.
    assert (pend = None ∧ found = None) as [-> ->].
    { destruct found as [e'|].
      - destruct Hci as ((obs & Hobs & _) & _). rewrite Hop in Hobs.
        by destruct obs.
      - destruct Hci as (Hp & _). rewrite Hop in Hp. split; [|done].
        destruct pend as [e0|]; [|done]. simpl in Hp.
        destruct Hp as [[? _]|[? _]]; [by destruct (Hcfg e0)|done]. }
    split; [|done]. destruct Hci as (_ & _ & Hu).
    destruct (Hu eq_refl) as [Hu0 _].
    by apply (returned_all_return p st).
  - (* the one record *)
    right. destruct (Hone j e ltac:(by left)) as [Heq Hatt].
    simplify_eq. clear Hone.
    destruct (P7 j e ltac:(by left)) as (_ & t & Hjt & Hrun & Hexc).
    assert (tasks_of p !! j = Some t) as Htj.
    { rewrite (enqueued_all p Henq) in Hjt.
      apply list_elem_of_lookup in Hjt as [i Hi].
      apply lookup_zip_with_Some in Hi as (a & b & ? & Ha & Hb).
      simplify_eq. apply lookup_seq in Ha as [-> _]. done. }
    assert (outcome_of pend found
            = if is_Queue_Empty e then Returned else Raised e) as Hout;
      [|exists j, t, e; split_and!; try done].
    3: { intros Hq. rewrite Hq in Hout. specialize (Hret Hout).
         by rewrite Hatt, length_seq in Hret. }
    2: { intros i t' Hlt Hi.
      assert ((i, t') ∈ enqueued p) as Hin.
      { rewrite (enqueued_all p Henq). apply list_elem_of_lookup. exists i.
        apply lookup_zip_with_Some. exists i, t'. split_and!; [done| |done].
        apply lookup_seq. split; [done|]. by eapply lookup_lt_Some. }
      assert (i ∈ completed st) as Hdone.
      { assert (i ∈ attempted st) as Hia
          by (rewrite Hatt; apply elem_of_seq; lia).
        rewrite Hac in Hia. apply elem_of_app in Hia as [|Hrunning]; [done|].
        exfalso.
        assert (attempted st = seq 0 j ++ [j]) as Hs
          by (rewrite Hatt, seq_S; done).
        pose proof (threads_at_most p st Hr) as Hle.
        destruct (threads st) as [|w [|]]; simpl in *; [|clear Hle|lia].
        { by apply elem_of_nil in Hrunning. }
        unfold running in Hac, Hrunning. simpl in Hac, Hrunning.
        rewrite app_nil_r in Hac, Hrunning.
        destruct (w_running w) as [|x [|]] eqn:Hw.
        - by apply elem_of_nil in Hrunning.
        - apply list_elem_of_singleton in Hrunning. subst x.
          rewrite Hs in Hac. apply app_inj_tail in Hac as [_ ?]. lia.
        - destruct w; simpl in Hw; congruence. }
      specialize (P6 (i, t') Hin Hdone). simpl in P6.
      destruct (run_task t') as [|e'] eqn:Ht'; [done|].
      apply list_elem_of_singleton in P6. simplify_eq. lia. }
    (* the result *)
    clear Hret.
    { unfold outcome_of. destruct found as [e'|].
      * destruct Hci as ((obs & Hobs & Hp) & _).
        destruct Hop as [rest Hrest]. rewrite Hobs in Hrest.
        destruct obs as [|? [|]]; simplify_eq/=.
        destruct pend as [e0|]; simpl in Hp; [|done].
        destruct Hp as [[? _]|[? _]]; [by destruct (Hcfg e0)|done].
      * destruct Hci as (Hp & _ & Hu).
        destruct pend as [e0|]; unfold pend_ok in Hp.
        { destruct Hp as [[? _]|[Hv _]]; [by destruct (Hcfg e0)|].
          destruct Hop as [rest Hrest].
          destruct (observed st) as [|e1 [|]]; [done| |done].
          rewrite visible_one in Hv. simpl in Hrest.
          destruct (is_Queue_Empty e1) eqn:Hq; simplify_eq. by rewrite Hq.  }
        destruct (Hu eq_refl) as [_ Hex]. rewrite Hex, app_nil_r in P8.
        simpl in P8.
        destruct Hp as (Hv & _). rewrite <- P8, visible_one in Hv.
        by destruct (is_Queue_Empty e). }
Qed.

(** ** The log *)

(** X15: the log holds one debug line for each task begun, in the order the
    tasks were begun and naming the function and arguments enqueued at that
    position; every failure is reported with [log.exception] once, before it
    is put on the channel; and without [output_interval] no progress message
    is ever logged. *)
Theorem log_accounts p st :
  reachable p st →
  Forall2 (λ j t, (j, t) ∈ enqueued p) (attempted st) (debug_lines (log st))
  ∧ exception_lines (log st) ≡ₚ (recorded st).*2 ++ (threads st ≫= w_logged)
  ∧ (output_interval (init_attrs p) = None → info_lines (log st) = []).
Proof.
  revert st.
  apply (reachable_ind p (λ st,
    Forall2 (λ j t, (j, t) ∈ enqueued p) (attempted st) (debug_lines (log st))
    ∧ exception_lines (log st) ≡ₚ (recorded st).*2 ++ (threads st ≫= w_logged)
    ∧ (output_interval (init_attrs p) = None → info_lines (log st) = []))).
  { split_and!; [by constructor|done|done]. }
  intros st st' Hr (IH1 & IH2 & IH3) Hstep.
  pose proof (self_const _ _ Hr) as Hself.
  assert (Forall (worker_ok p st) (threads st)) as P5.
  { destruct (pool_inv_reachable _ _ Hr) as [[_ ->]|[_ Hinv]]; [done|].
    by destruct Hinv as (_ & _ & _ & _ & ? & _). }
  step_cases Hstep; simpl in *.
  all: try match goal with
           | Hi : threads _ !! _ = Some _ |- _ =>
               pose proof (Forall_lookup_1 _ _ _ _ P5 Hi) as Hw; simpl in Hw
           end.
  all: try match goal with
       | Hi : threads ?st !! ?i = Some ?w
         |- context [<[?i := ?w']> (threads ?st)] =>
           destruct (bind_insert_split w_logged (threads st) i w w' Hi)
             as (rl & Hl1 & Hl2);
           simpl in Hl1, Hl2; rewrite ?Hl2; rewrite ?Hl1 in IH2
       end.
  all: unfold debug_lines, exception_lines, info_lines in *.
  all: rewrite ?omap_app, ?bind_app, ?fmap_app; simpl; rewrite ?app_nil_r.
  all: split_and!; try done.
  all: try (rewrite IH2; solve_Permutation).
  all: try congruence.
  all: try (intros Hnone; rewrite Hself in *; simpl in *; congruence).
  apply Forall2_app; [done|]. constructor; [|constructor].
  by destruct t.
Qed.

End Proofs.

(** * The theorems at concrete inputs *)

Lemma double_gate_witness :
  run_over_exceptions (init_attrs override_params) = true
  ∧ __init__ (MkParams [noop] None None 5 3600 true false None)
    = __init__ (MkParams [noop] None None 5 3600 false false None).
Proof.
  split.
  - apply (double_gate sample_hrts sample_format_lists override_params).
    split; reflexivity.
  - apply (double_gate sample_hrts sample_format_lists
             (MkParams [noop] None None 5 3600 true false None)).
    reflexivity.
Defined.

Lemma padded_triples_enqueued_witness :
  Forall (λ a, is_basestring a = false) (args_list (init_attrs padded_params))
  ∧ length (tasks_of padded_params) = 2
  ∧ tasks_of padded_params !! 1 = Some (noop, ArgsFill, []).
Proof.
  assert (Forall (λ a, is_basestring a = false)
            (args_list (init_attrs padded_params))) as H.
  { repeat constructor. }
  split; [exact H|].
  destruct (padded_triples_enqueued sample_hrts sample_format_lists
              padded_params 0 0 0 H) as (Hl & Hlk & _).
  split; [exact Hl|]. apply (Hlk 1). simpl. lia.
Defined.

Lemma bare_string_not_enqueued :
  ¬ all_triples_enqueued sample_hrts sample_format_lists bare_string_params.
Proof.
  intros H. specialize (H 0%float 0%float 0%float _ eq_refl). vm_compute in H.
  discriminate H.
Qed.

Lemma bare_string_rejected_witness :
  Exists (λ a, is_basestring a = true) (args_list (init_attrs bare_string_params))
  ∧ ∃ st, run sample_hrts sample_format_lists
            [ActCaller 0 0 0; ActCaller 0 0 0] (__init__ bare_string_params)
          = Some st
          ∧ run_result st = Some (Raised args_shape_error)
          ∧ threads st = [].
Proof.
  assert (Exists (λ a, is_basestring a = true)
            (args_list (init_attrs bare_string_params))) as H.
  { apply Exists_cons_hd. reflexivity. }
  split; [exact H|].
  destruct (bare_string_rejected sample_hrts sample_format_lists
              bare_string_params 0 0 0 H) as [(st & Hrun & Hres) Hall].
  exists st. split; [exact Hrun|]. split; [exact Hres|].
  apply (Hall st). exact (run_reachable _ _ _ _ _ Hrun).
Defined.

Lemma progress_report_witness :
  ∃ st st' st2 st3,
    run sample_hrts sample_format_lists progress_schedule (__init__ progress_params)
    = Some st
    ∧ caller st = MProgress 0 0
    ∧ run_threads sample_hrts sample_format_lists 3 7 0x1.fffffffffffffp-1 st
      = Some st'
    ∧ log st'
      = [LogInfo "After 7 seconds 1 functions pending execution of 1 total"]
    ∧ run sample_hrts sample_format_lists (callers 3) st' = Some st2
    ∧ caller st2 = MProgress 0 0x1.fffffffffffffp-1
    ∧ run_threads sample_hrts sample_format_lists 2 2 2 st2 = Some st3
    ∧ caller st3 = MSleep 0 0x1.fffffffffffffp-1
    ∧ log st3 = log st'.
Proof.
  destruct (run sample_hrts sample_format_lists progress_schedule
              (__init__ progress_params)) as [st|] eqn:Hrun;
    [|vm_compute in Hrun; discriminate Hrun].
  assert (caller st = MProgress 0 0
          ∧ output_interval (self st) = Some 1%float
          ∧ log st = [] ∧ length (queue st) = 1
          ∧ length (funcs (self st)) = 1) as (Hc & Hi & Hl & Hq & Hf).
  { vm_compute in Hrun. injection Hrun as <-. repeat split. }
  destruct (progress_report sample_hrts sample_format_lists progress_params
              st 0 0 (run_reachable _ _ _ _ _ Hrun)) as (_ & Hp & _).
  destruct (Hp Hc 1%float 3%float 7%float 0x1.fffffffffffffp-1%float Hi
              eq_refl) as (Hstep & _).
  rewrite Hq, Hf in Hstep.
  set (st' := set_caller (MSleep 0 0x1.fffffffffffffp-1)
                (add_log
                   (LogInfo
                      "After 7 seconds 1 functions pending execution of 1 total")
                   st)).
  assert (run_threads sample_hrts sample_format_lists 3 7
            0x1.fffffffffffffp-1 st = Some st') as Hstep' by exact Hstep.
  destruct (run sample_hrts sample_format_lists (callers 3) st')
    as [st2|] eqn:Hrun2.
  2: { vm_compute in Hrun. injection Hrun as <-. vm_compute in Hrun2.
       discriminate Hrun2. }
  assert (caller st2 = MProgress 0 0x1.fffffffffffffp-1
          ∧ output_interval (self st2) = Some 1%float
          ∧ log st2 = log st') as (Hc2 & Hi2 & Hl2).
  { vm_compute in Hrun. injection Hrun as <-. vm_compute in Hrun2.
    injection Hrun2 as <-. repeat split. }
  assert (reachable sample_hrts sample_format_lists progress_params st2)
    as Hr2.
  { unfold reachable. etrans; [exact (run_reachable _ _ _ _ _ Hrun)|].
    eapply rtc_l; [by exists (ActCaller 3 7 0x1.fffffffffffffp-1)|].
    exact (run_steps _ _ _ _ _ Hrun2). }
  destruct (progress_report sample_hrts sample_format_lists progress_params
              st2 0 0x1.fffffffffffffp-1 Hr2) as (_ & _ & Hno).
  assert (run_threads sample_hrts sample_format_lists 2 2 2 st2
          = Some (set_caller (MSleep 0 0x1.fffffffffffffp-1) st2)) as Hstep2.
  { apply (Hno Hc2). right. exists 1%float. split; [exact Hi2|reflexivity]. }
  exists st, st', st2, (set_caller (MSleep 0 0x1.fffffffffffffp-1) st2).
  split; [reflexivity|]. split; [exact Hc|]. split; [exact Hstep'|].
  split; [simpl; rewrite Hl; reflexivity|]. split; [exact Hrun2|].
  split; [exact Hc2|]. split; [exact Hstep2|]. split; [reflexivity|].
  exact Hl2.
Defined.

Lemma empty_pool_witness :
  ∃ st, run sample_hrts sample_format_lists (replicate 6 (ActCaller 0 0 0))
          (__init__ empty_params) = Some st
        ∧ run_result st = Some Returned
        ∧ length (threads st) = 2.
Proof.
  destruct (empty_pool sample_hrts sample_format_lists empty_params 0 0 0
              eq_refl eq_refl eq_refl (__init__ empty_params)
              (reachable_init _ _ _)) as (_ & _ & _ & _ & _ & Hrun).
  exact Hrun.
Defined.

Lemma exactly_once_witness :
  ∃ st, reachable sample_hrts sample_format_lists three_noops_params st
        ∧ run_result st = Some Returned.
Proof.
  apply (exactly_once sample_hrts sample_format_lists three_noops_params).
  - repeat constructor.
  - repeat constructor.
  - reflexivity.
Defined.

Lemma first_failure_observed_run :
  ∃ st st',
    run sample_hrts sample_format_lists first_failure_observed
      (__init__ two_failures_params) = Some st
    ∧ observed st = [boom "a"] ∧ keep_running st = false
    ∧ attempted st = [0; 1]
    ∧ _wrapped 2 st = Some st' ∧ attempted st' = [0; 1; 2].
Proof.
  eexists _, _. split; [vm_compute; reflexivity|].
  split_and!; [reflexivity..|vm_compute; reflexivity|reflexivity].
Qed.

Lemma two_failures_run :
  ∃ st, run sample_hrts sample_format_lists two_failures_schedule
          (__init__ two_failures_params) = Some st
        ∧ caller st = MDone (Some (boom "a")) (Some (boom "b"))
        ∧ observed st = [boom "a"; boom "b"]
        ∧ threads st = [WExit; WExit; WExit].
Proof. eexists. split; [vm_compute; reflexivity|]. by repeat split. Qed.

Lemma fail_fast_races :
  ¬ reraises_first_observed sample_hrts sample_format_lists
      two_failures_params
  ∧ ¬ no_start_after_observed sample_hrts sample_format_lists
        two_failures_params.
Proof.
  split.
  - intros H. destruct two_failures_run as (st & Hrun & Hc & Hobs & _).
    specialize (H st (Raised (boom "b")) (boom "a")
                  (run_reachable _ _ _ _ _ Hrun)).
    unfold run_result in H. rewrite Hc, Hobs in H.
    specialize (H eq_refl eq_refl). discriminate H.
  - intros H.
    destruct first_failure_observed_run
      as (st & st' & Hrun & Hobs & _ & Hat & Hstep & Hat').
    specialize (H st st' (run_reachable _ _ _ _ _ Hrun)).
    rewrite Hobs, Hat, Hat' in H.
    assert ([0; 1; 2] = [0; 1]) as Heq.
    { apply H; [discriminate|]. by exists (ActWorker 2). }
    discriminate Heq.
Qed.

Lemma fail_fast_reraise_witness :
  ∃ st e st' e',
    reachable sample_hrts sample_format_lists two_failures_params st
    ∧ run_result st = Some (Raised e)
    ∧ last (observed st) = Some e
    ∧ keep_running st = false
    ∧ rtc (step sample_hrts sample_format_lists)
        (__init__ two_failures_params) st'
    ∧ run_result st' = Some (Raised e')
    ∧ last (observed st') = Some e'.
Proof.
  destruct two_failures_run as (st & Hrun & Hc & Hobs & _).
  pose proof (run_reachable _ _ _ _ _ Hrun) as Hr.
  assert (Forall (λ t, ∀ e, run_task t = Raises e → is_Queue_Empty e = false)
            (tasks_of two_failures_params)) as Hne.
  { repeat constructor; intros e He; vm_compute in He;
      [injection He as <-; reflexivity..|discriminate He]. }
  assert (Forall (λ t, ∀ e, run_task t = Raises e → is_Exception e = true)
            (tasks_of two_failures_params)) as Hexc.
  { repeat constructor; intros e He; vm_compute in He;
      [injection He as <-; reflexivity..|discriminate He]. }
  assert (¬ Forall (λ t, run_task t = Returns) (tasks_of two_failures_params))
    as Hsome.
  { intros Hall. apply Forall_inv in Hall. vm_compute in Hall.
    discriminate Hall. }
  destruct (fail_fast_reraise sample_hrts sample_format_lists
              two_failures_params eq_refl ltac:(repeat constructor) eq_refl
              Hne st Hr) as (Hres & Hdown & _).
  destruct (fail_fast_reraise sample_hrts sample_format_lists
              two_failures_params eq_refl ltac:(repeat constructor) eq_refl
              Hne (__init__ two_failures_params) (reachable_init _ _ _))
    as (_ & _ & _ & _ & Hends).
  destruct (Hends eq_refl Hexc)
    as (_ & st' & r & Hsteps & Hres' & _ & Hraise).
  destruct (Hraise Hsome) as (e' & -> & Hlast' & _).
  assert (run_result st = Some (Raised (boom "b"))) as Hb.
  { unfold run_result. rewrite Hc. reflexivity. }
  destruct (Hres _ Hb) as [[Hret _]|(e & He & Hlast & _)];
    [discriminate Hret|].
  exists st, e, st', e'. split; [exact Hr|]. split; [by rewrite Hb, He|].
  split; [exact Hlast|]. split; [apply Hdown; by rewrite Hobs|].
  split; [exact Hsteps|]. split; [exact Hres'|exact Hlast'].
Defined.

(** C5: one callable for two argument tuples, two workers. The padded task
    fails in its worker before the caller tests the lengths, and the
    [finally] block raises that failure in place of the shape-mismatch
    error. *)
Theorem shape_error_overridden :
  ∃ st, run sample_hrts sample_format_lists shape_race_schedule
          (__init__ shape_race_params) = Some st
        ∧ shape_bad (init_attrs shape_race_params) = true
        ∧ caller st
          = MDone (Some (shape_mismatch_error sample_format_lists
                           (init_attrs shape_race_params)))
              (Some attribute_error)
        ∧ run_result st = Some (Raised attribute_error)
        ∧ threads st = [WExit; WExit].
Proof. eexists. split; [vm_compute; reflexivity|]. by repeat split. Qed.

(** C7: the only task raises [Queue.Empty]. The [finally] block finds the
    record, joins the worker and raises the record inside its own [try],
    where [except Queue.Empty] absorbs it: [run_threads] returns. *)
Theorem further_failure_absorbed :
  ∃ st, run sample_hrts sample_format_lists empty_failure_schedule
          (__init__ empty_failure_params) = Some st
        ∧ caller st = MDone None (Some queue_empty)
        ∧ observed st = [queue_empty]
        ∧ recorded st = [(0, queue_empty)]
        ∧ joined st = [(0, 3600%Z)]
        ∧ run_result st = Some Returned.
Proof. eexists. split; [vm_compute; reflexivity|]. by repeat split. Qed.


(** ** Runs of the further properties *)

Lemma first_in_first_out_witness :
  ∃ st k,
    run sample_hrts sample_format_lists first_failure_observed
      (__init__ two_failures_params) = Some st
    ∧ k ≤ length (enqueued two_failures_params)
    ∧ queue st = drop k (enqueued two_failures_params)
    ∧ pulled (threads st) ++ attempted st ≡ₚ seq 0 k.
Proof.
  destruct (run sample_hrts sample_format_lists first_failure_observed
              (__init__ two_failures_params)) as [st|] eqn:Hrun;
    [|vm_compute in Hrun; discriminate Hrun].
  assert (caller st ≠ MEnqueue) as Hc.
  { vm_compute in Hrun. injection Hrun as <-. discriminate. }
  destruct (first_in_first_out sample_hrts sample_format_lists
              two_failures_params st (run_reachable _ _ _ _ _ Hrun) Hc)
    as (k & Hk & Hq & Hp).
  exists st, k. split; [reflexivity|]. split; [exact Hk|].
  split; [exact Hq|exact Hp].
Defined.

Lemma normal_return_all_done_witness :
  ∃ st,
    run sample_hrts sample_format_lists three_noops_schedule
      (__init__ three_noops_params) = Some st
    ∧ run_result st = Some Returned
    ∧ unfinished_tasks st = 0
    ∧ attempted st ≡ₚ seq 0 (length (tasks_of three_noops_params))
    ∧ completed st ≡ₚ seq 0 (length (tasks_of three_noops_params)).
Proof.
  destruct (run sample_hrts sample_format_lists three_noops_schedule
              (__init__ three_noops_params)) as [st|] eqn:Hrun;
    [|vm_compute in Hrun; discriminate Hrun].
  assert (run_result st = Some Returned) as Hres.
  { vm_compute in Hrun. injection Hrun as <-. reflexivity. }
  destruct (normal_return_all_done sample_hrts sample_format_lists
              three_noops_params st (run_reachable _ _ _ _ _ Hrun) Hres)
    as (_ & _ & Hu & _ & _ & _ & Ha & Hd).
  exists st. split; [reflexivity|]. split; [exact Hres|].
  split; [exact Hu|]. split; [exact Ha|exact Hd].
Defined.

Lemma raised_is_genuine_witness :
  ∃ st,
    run sample_hrts sample_format_lists two_failures_schedule
      (__init__ two_failures_params) = Some st
    ∧ run_result st = Some (Raised (boom "b"))
    ∧ boom "b" ∈ observed st
    ∧ ∃ j t, (j, boom "b") ∈ recorded st
             ∧ (j, t) ∈ enqueued two_failures_params
             ∧ run_task t = Raises (boom "b").
Proof.
  destruct (run sample_hrts sample_format_lists two_failures_schedule
              (__init__ two_failures_params)) as [st|] eqn:Hrun;
    [|vm_compute in Hrun; discriminate Hrun].
  assert (run_result st = Some (Raised (boom "b"))) as Hres.
  { vm_compute in Hrun. injection Hrun as <-. reflexivity. }
  destruct (raised_is_genuine sample_hrts sample_format_lists
              two_failures_params st (boom "b")
              (run_reachable _ _ _ _ _ Hrun) Hres)
    as (_ & _ & [Hcfg|[Hin Htask]]).
  - exfalso. destruct Hcfg as [[Heq _]|[Heq _]]; discriminate Heq.
  - exists st. split; [reflexivity|]. split; [exact Hres|].
    split; [exact Hin|exact Htask].
Defined.

Lemma shape_mismatch_result_witness :
  ∃ st e,
    run sample_hrts sample_format_lists shape_race_schedule
      (__init__ shape_race_params) = Some st
    ∧ run_result st = Some (Raised e)
    ∧ observed st = [e]
    ∧ head (recorded st).*2 = Some e.
Proof.
  destruct (run sample_hrts sample_format_lists shape_race_schedule
              (__init__ shape_race_params)) as [st|] eqn:Hrun;
    [|vm_compute in Hrun; discriminate Hrun].
  assert (run_result st = Some (Raised attribute_error)
          ∧ observed st ≠ []) as [Hres Hobs].
  { vm_compute in Hrun. injection Hrun as <-. split; [reflexivity|].
    discriminate. }
  assert (Forall (λ a, is_basestring a = false)
            (args_list (init_attrs shape_race_params))) as Hno.
  { repeat constructor. }
  destruct (shape_mismatch_result sample_hrts sample_format_lists
              shape_race_params st (Raised attribute_error) eq_refl Hno
              (run_reachable _ _ _ _ _ Hrun) Hres)
    as [[Heq _]|(e & Heq & Ho & _ & Hh)].
  - discriminate Heq.
  - exists st, e. split; [reflexivity|]. split; [by rewrite Hres, Heq|].
    split; [exact Ho|exact Hh].
Defined.

Lemma counter_accurate_witness :
  ∃ st,
    run sample_hrts sample_format_lists first_failure_observed
      (__init__ two_failures_params) = Some st
    ∧ unfinished_tasks st + length (completed st) = 3
    ∧ length (queue st) ≤ unfinished_tasks st.
Proof.
  destruct (run sample_hrts sample_format_lists first_failure_observed
              (__init__ two_failures_params)) as [st|] eqn:Hrun;
    [|vm_compute in Hrun; discriminate Hrun].
  assert (caller st ≠ MEnqueue) as Hc.
  { vm_compute in Hrun. injection Hrun as <-. discriminate. }
  destruct (counter_accurate sample_hrts sample_format_lists
              two_failures_params st (run_reachable _ _ _ _ _ Hrun) Hc)
    as (Hu & _ & _ & Hq).
  exists st. split; [reflexivity|]. split; [exact Hu|exact Hq].
Defined.

Lemma threads_started_witness :
  ∃ st,
    run sample_hrts sample_format_lists first_failure_observed
      (__init__ two_failures_params) = Some st
    ∧ length (threads st) = 3.
Proof.
  destruct (run sample_hrts sample_format_lists first_failure_observed
              (__init__ two_failures_params)) as [st|] eqn:Hrun;
    [|vm_compute in Hrun; discriminate Hrun].
  assert (caller st ≠ MEnqueue ∧ ∀ k, caller st ≠ MStart (S k)) as [Hc Hk].
  { vm_compute in Hrun. injection Hrun as <-.
    split; [discriminate|intros k; discriminate]. }
  destruct (threads_started sample_hrts sample_format_lists
              two_failures_params st (run_reachable _ _ _ _ _ Hrun))
    as (_ & _ & Hn).
  exists st. split; [reflexivity|]. exact (Hn eq_refl Hc Hk).
Defined.

Lemma join_discipline_witness :
  ∃ st,
    run sample_hrts sample_format_lists two_failures_schedule
      (__init__ two_failures_params) = Some st
    ∧ joined st = joins_upto (self st) (length (threads st)).
Proof.
  destruct (run sample_hrts sample_format_lists two_failures_schedule
              (__init__ two_failures_params)) as [st|] eqn:Hrun;
    [|vm_compute in Hrun; discriminate Hrun].
  assert (caller st = MDone (Some (boom "a")) (Some (boom "b"))) as Hc.
  { vm_compute in Hrun. injection Hrun as <-. reflexivity. }
  destruct (join_discipline sample_hrts sample_format_lists
              two_failures_params st (run_reachable _ _ _ _ _ Hrun))
    as (_ & _ & Hall & _).
  exists st. split; [reflexivity|]. exact (Hall _ _ Hc).
Defined.

Lemma dead_worker_blocks_return_witness :
  ∃ st,
    run sample_hrts sample_format_lists interrupted_schedule
      (__init__ interrupted_params) = Some st
    ∧ 0 < unfinished_tasks st
    ∧ run_result st ≠ Some Returned.
Proof.
  destruct (run sample_hrts sample_format_lists interrupted_schedule
              (__init__ interrupted_params)) as [st|] eqn:Hrun;
    [|vm_compute in Hrun; discriminate Hrun].
  assert (threads st !! 0
          = Some (WDead (0, (raising "stop" interrupt, ArgsFill, []))))
    as Hw.
  { vm_compute in Hrun. injection Hrun as <-. reflexivity. }
  destruct (dead_worker_blocks_return sample_hrts sample_format_lists
              interrupted_params st 0 _ (run_reachable _ _ _ _ _ Hrun) Hw)
    as (_ & Hu & _ & Hres).
  exists st. split; [reflexivity|]. split; [exact Hu|exact Hres].
Defined.

Lemma fail_fast_late_starts_witness :
  ∃ st st' l,
    run sample_hrts sample_format_lists first_failure_observed
      (__init__ two_failures_params) = Some st
    ∧ run sample_hrts sample_format_lists after_first_failure st = Some st'
    ∧ late (threads st) < 3
    ∧ attempted st' = attempted st ++ l
    ∧ length l + late (threads st') ≤ late (threads st).
Proof.
  destruct (run sample_hrts sample_format_lists first_failure_observed
              (__init__ two_failures_params)) as [st|] eqn:Hrun;
    [|vm_compute in Hrun; discriminate Hrun].
  destruct (run sample_hrts sample_format_lists after_first_failure st)
    as [st'|] eqn:Hrun'.
  2: { vm_compute in Hrun. injection Hrun as <-. vm_compute in Hrun'.
       discriminate Hrun'. }
  assert (keep_running st = false) as Hk.
  { vm_compute in Hrun. injection Hrun as <-. reflexivity. }
  destruct (fail_fast_late_starts sample_hrts sample_format_lists
              two_failures_params st st' eq_refl
              (run_reachable _ _ _ _ _ Hrun) Hk (run_steps _ _ _ _ _ Hrun'))
    as (_ & Hlt & l & Hl & Hle).
  exists st, st', l. split; [reflexivity|]. split; [exact Hrun'|].
  split; [exact Hlt|]. split; [exact Hl|exact Hle].
Defined.

Lemma single_worker_in_order_witness :
  ∃ st,
    run sample_hrts sample_format_lists second_fails_schedule
      (__init__ second_fails_params) = Some st
    ∧ attempted st = seq 0 (length (attempted st))
    ∧ completed st = seq 0 (length (completed st)).
Proof.
  destruct (run sample_hrts sample_format_lists second_fails_schedule
              (__init__ second_fails_params)) as [st|] eqn:Hrun;
    [|vm_compute in Hrun; discriminate Hrun].
  assert ((max_workers (init_attrs second_fails_params) ≤ 1)%Z) as Hn
    by (simpl; lia).
  destruct (single_worker_in_order sample_hrts sample_format_lists
              second_fails_params st Hn (run_reachable _ _ _ _ _ Hrun))
    as (Ha & Hd & _).
  exists st. split; [reflexivity|]. split; [exact Ha|exact Hd].
Defined.

Lemma single_worker_first_failure_witness :
  ∃ st,
    run sample_hrts sample_format_lists second_fails_schedule
      (__init__ second_fails_params) = Some st
    ∧ run_result st = Some (Raised (boom "boom"))
    ∧ attempted st = [0; 1].
Proof.
  destruct (run sample_hrts sample_format_lists second_fails_schedule
              (__init__ second_fails_params)) as [st|] eqn:Hrun;
    [|vm_compute in Hrun; discriminate Hrun].
  assert (run_result st = Some (Raised (boom "boom"))) as Hres.
  { vm_compute in Hrun. injection Hrun as <-. reflexivity. }
  assert ((max_workers (init_attrs second_fails_params) ≤ 1)%Z) as Hn
    by (simpl; lia).
  assert (Forall (λ a, is_basestring a = false)
            (args_list (init_attrs second_fails_params))) as Hno
    by constructor.
  destruct (single_worker_first_failure sample_hrts sample_format_lists
              second_fails_params st _ eq_refl Hn Hno eq_refl
              (run_reachable _ _ _ _ _ Hrun) Hres)
    as [[_ Heq]|(j & t & e & Hj & Ht & _ & Hbefore & Hatt & _)].
  { discriminate Heq. }
  exists st. split; [reflexivity|]. split; [exact Hres|].
  destruct j as [|[|j]].
  - vm_compute in Hj. injection Hj as <-. vm_compute in Ht. discriminate Ht.
  - exact Hatt.
  - exfalso. vm_compute in Hj. destruct j; discriminate Hj.
Defined.

Lemma log_accounts_witness :
  ∃ st,
    run sample_hrts sample_format_lists second_fails_schedule
      (__init__ second_fails_params) = Some st
    ∧ Forall2 (λ j t, (j, t) ∈ enqueued second_fails_params)
        (attempted st) (debug_lines (log st))
    ∧ exception_lines (log st)
      ≡ₚ (recorded st).*2 ++ (threads st ≫= w_logged)
    ∧ info_lines (log st) = [].
Proof.
  destruct (run sample_hrts sample_format_lists second_fails_schedule
              (__init__ second_fails_params)) as [st|] eqn:Hrun;
    [|vm_compute in Hrun; discriminate Hrun].
  destruct (log_accounts sample_hrts sample_format_lists
              second_fails_params st (run_reachable _ _ _ _ _ Hrun))
    as (Hd & He & Hi).
  exists st. split; [reflexivity|]. split; [exact Hd|].
  split; [exact He|]. apply Hi. reflexivity.
Defined.
